(** * splitter.py: splitting a concatenated artifact back into files

    A shallow embedding of [splitter.py] and the verification of its
    specification.  Python strings are sequences of Unicode code points;
    they are modelled as lists of [N].  The library functions the script
    calls ([re], [pathlib], [os.path], [open], [input], [print]) are
    modelled by the definitions of the first modules; the script's own
    functions keep their names. *)

From Stdlib Require Import NArith ZArith Lia String Ascii.
From stdpp Require Import prelude gmap.

Local Open Scope N_scope.

(** ** Text *)

Module Text.

Definition char : Type := N.
Definition str : Type := list char.

(** A literal of the source, as code points. *)
Definition lit (s : string) : str := map N_of_ascii (list_ascii_of_string s).

Definition NL : char := 10.
Definition is_nl (c : char) : bool := c =? NL.

(** [str.isspace] on one code point, which is also the class [\s] of a
    [str] pattern: the Unicode white space table of CPython. *)
Definition is_space (c : char) : bool :=
  ((9 <=? c) && (c <=? 13)) || ((28 <=? c) && (c <=? 32))
  || (c =? 133) || (c =? 160) || (c =? 5760)
  || ((8192 <=? c) && (c <=? 8202))
  || (c =? 8232) || (c =? 8233) || (c =? 8239) || (c =? 8287) || (c =? 12288).

(** The class [.] without [re.DOTALL]. *)
Definition is_dot (c : char) : bool := negb (is_nl c).

Fixpoint lstrip (s : str) : str :=
  match s with
  | c :: s' => if is_space c then lstrip s' else s
  | [] => []
  end.

Definition rstrip (s : str) : str := reverse (lstrip (reverse s)).

(** [s.strip()] *)
Definition strip (s : str) : str := rstrip (lstrip s).

(** [s.startswith(p)] *)
Fixpoint startswith (s p : str) {struct p} : bool :=
  match p, s with
  | [], _ => true
  | _ :: _, [] => false
  | a :: p', b :: s' => (a =? b) && startswith s' p'
  end.

(** [s[i:j]] for [0 <= i] and [0 <= j]; Python clamps both to [len(s)]. *)
Definition slice (s : str) (i j : nat) : str := take (j - i) (drop i s).

(** [s.lower()].  On a string of ASCII characters it maps [A-Z] to [a-z];
    the Unicode case tables that decide the other strings are not part of
    the script and are a parameter. *)
Definition is_ascii (c : char) : bool := c <? 128.
Definition ascii_lower (c : char) : char :=
  if (65 <=? c) && (c <=? 90) then c + 32 else c.
Definition lower (unicode_lower : str -> str) (s : str) : str :=
  if forallb is_ascii s then map ascii_lower s else unicode_lower s.

End Text.
Export Text.

(** ** Regular expressions: the fragment of [re] the script uses

    A backtracking matcher in continuation-passing style.  A state is a
    position in the subject, seen from the place where the match attempt
    started: the number of characters consumed, whether the position is at
    the beginning of a line, the rest of the subject, and the span of
    group 1. *)

Module Re.

Inductive regex : Type :=
| REmpty
| RBol                                        (* ^  with re.MULTILINE *)
| REol                                        (* $  with re.MULTILINE *)
| RChar (c : char)
| RStar (greedy : bool) (cls : char -> bool)  (* cls*  and  cls*?  *)
| RGroup (r : regex)                          (* ( r ), the only group *)
| RSeq (r1 r2 : regex).

Record mstate : Type := MState {
  ms_pos : nat;
  ms_bol : bool;
  ms_rest : str;
  ms_group : nat * nat
}.

Definition at_eol (rest : str) : bool :=
  match rest with [] => true | c :: _ => is_nl c end.

(** The loop of a star.  A greedy star first tries to take one more
    character and falls back on the continuation; a lazy star tries the
    continuation first. *)
Fixpoint star (greedy : bool) (cls : char -> bool)
    (k : mstate -> option mstate)
    (pos : nat) (bol : bool) (g : nat * nat) (rest : str) : option mstate :=
  let here := k (MState pos bol rest g) in
  match rest with
  | c :: rest' =>
      if cls c then
        if greedy then
          match star greedy cls k (S pos) (is_nl c) g rest' with
          | Some r => Some r
          | None => here
          end
        else
          match here with
          | Some r => Some r
          | None => star greedy cls k (S pos) (is_nl c) g rest'
          end
      else here
  | [] => here
  end.

Fixpoint rmatch (r : regex) (st : mstate) (k : mstate -> option mstate)
    : option mstate :=
  match r with
  | REmpty => k st
  | RBol => if ms_bol st then k st else None
  | REol => if at_eol (ms_rest st) then k st else None
  | RChar c =>
      match ms_rest st with
      | c' :: rest' =>
          if c =? c'
          then k (MState (S (ms_pos st)) (is_nl c') rest' (ms_group st))
          else None
      | [] => None
      end
  | RStar greedy cls =>
      star greedy cls k (ms_pos st) (ms_bol st) (ms_group st) (ms_rest st)
  | RGroup r1 =>
      rmatch r1 st (fun st1 =>
        k (MState (ms_pos st1) (ms_bol st1) (ms_rest st1)
                  (ms_pos st, ms_pos st1)))
  | RSeq r1 r2 => rmatch r1 st (fun st1 => rmatch r2 st1 k)
  end.

Definition rlit (s : str) : regex := foldr (fun c r => RSeq (RChar c) r) REmpty s.

(** A match object: [m.start()], [m.end()] and [m.group(1)]. *)
Record Match : Type := MkMatch {
  m_start : nat;
  m_end : nat;
  m_group1 : str
}.

(** An attempt at one position: [bol] tells whether the position begins a
    line, [rest] is the subject from there on. *)
Definition match_here (r : regex) (bol : bool) (rest : str) : option mstate :=
  rmatch r (MState 0 bol rest (0, 0)%nat) Some.

Definition to_match (pos : nat) (rest : str) (st : mstate) : Match :=
  MkMatch pos (pos + ms_pos st)
          (slice rest (fst (ms_group st)) (snd (ms_group st))).

(** [pattern.finditer]: the matches from left to right, none overlapping
    another.  [skip] counts the characters that still belong to the match
    found last; the search resumes where that match ends, and one
    character further after an empty match. *)
Fixpoint finditer_from (r : regex) (pos : nat) (bol : bool) (skip : nat)
    (rest : str) : list Match :=
  match skip with
  | S n =>
      match rest with
      | c :: rest' => finditer_from r (S pos) (is_nl c) n rest'
      | [] => []
      end
  | O =>
      match match_here r bol rest with
      | Some st =>
          to_match pos rest st ::
          match rest with
          | c :: rest' =>
              finditer_from r (S pos) (is_nl c) (pred (ms_pos st)) rest'
          | [] => []
          end
      | None =>
          match rest with
          | c :: rest' => finditer_from r (S pos) (is_nl c) 0 rest'
          | [] => []
          end
      end
  end.

Definition finditer (r : regex) (content : str) : list Match :=
  finditer_from r 0 true 0 content.

End Re.
Export Re.

(** ** The section parser *)

Definition MARKER_OPEN : str := Eval cbv in lit "===== FILE:".
Definition MARKER_CLOSE : str := Eval cbv in lit "=====".

(** [re.compile(r"^===== FILE:\s*(.*?)\s*=====$", re.MULTILINE)] *)
Definition pattern : regex :=
  RSeq RBol
 (RSeq (rlit MARKER_OPEN)
 (RSeq (RStar true is_space)
 (RSeq (RGroup (RStar false is_dot))
 (RSeq (RStar true is_space)
 (RSeq (rlit MARKER_CLOSE)
       REol))))).

Definition section : Type := str * str.

(** The body of the loop over [enumerate(matches)]. *)
Definition parse_section (content : str) (matches : list Match)
    (i : nat) (m : Match) : section :=
  let file_path := strip (m_group1 m) in
  let start := m_end m in
  let end_ :=
    if bool_decide (i + 1 < length matches)%nat
    then from_option m_start 0%nat (matches !! (i + 1)%nat)
    else length content in
  let file_content := slice content start end_ in
  let file_content :=
    if startswith file_content [NL] then drop 1 file_content
    else file_content in
  (file_path, file_content).

Definition parse_concatenated_file (content : str) : list section :=
  let matches := finditer pattern content in
  match matches with
  | [] => []
  | _ => imap (parse_section content matches) matches
  end.

(** ** Exceptions *)

Module Exc.

(** The exceptions that occur.  [msg] is [str(e)].  [KeyboardInterrupt] and
    [SystemExit] are not subclasses of [Exception]; the four between
    [FileNotFoundError] and [FileExistsError] are subclasses of [OSError]. *)
Inductive exn : Type :=
| ValueError (msg : str)
| FileNotFoundError (msg : str)
| IsADirectoryError (msg : str)
| NotADirectoryError (msg : str)
| PermissionError (msg : str)
| FileExistsError (msg : str)
| EOFError
| KeyboardInterrupt
| SystemExit (code : Z).

Definition exn_message (e : exn) : str :=
  match e with
  | ValueError msg | FileNotFoundError msg | IsADirectoryError msg
  | NotADirectoryError msg | PermissionError msg | FileExistsError msg => msg
  | EOFError | KeyboardInterrupt => []
  | SystemExit _ => []
  end.

Definition is_Exception (e : exn) : bool :=
  match e with
  | KeyboardInterrupt | SystemExit _ => false
  | _ => true
  end.

Inductive result (A : Type) : Type :=
| Ok (a : A)
| Raise (e : exn).
Arguments Ok {A} a.
Arguments Raise {A} e.

Definition rbind {A B} (r : result A) (f : A -> result B) : result B :=
  match r with
  | Ok a => f a
  | Raise e => Raise e
  end.

(** The status the interpreter exits with when the program ends with [r]. *)
Definition exit_status {A} (r : result A) : Z :=
  match r with
  | Ok _ => 0%Z
  | Raise (SystemExit code) => code
  | Raise _ => 1%Z
  end.

End Exc.
Export Exc.

(** ** Paths: [pathlib] and [os.path], POSIX flavour

    A file system without symbolic links is modelled, so that resolving a
    path is normalising it against the current directory. *)

Module Paths.

Definition SEP : char := 47.
Definition NUL : char := 0.
Definition DOT : str := Eval cbv in lit ".".
Definition DOTDOT : str := Eval cbv in lit "..".

(** [s.split('/')] *)
Fixpoint split_sep (s : str) : list str :=
  match s with
  | [] => [[]]
  | c :: s' =>
      if c =? SEP then [] :: split_sep s'
      else match split_sep s' with
           | x :: xs => (c :: x) :: xs
           | [] => [[c]]
           end
  end.

Definition is_component (c : str) : bool :=
  negb (bool_decide (c = [])) && negb (bool_decide (c = DOT)).

(** A [PurePosixPath]: whether it has a root, and its components.  Empty
    components and [.] are dropped when a path is built, [..] is kept.
    (A root of exactly two slashes is kept apart by [pathlib]; it is lost
    by [resolve], which every path goes through here.) *)
Record ppath : Type := PPath {
  p_abs : bool;
  p_parts : list str
}.

(** [Path(s)] *)
Definition path_of (s : str) : ppath :=
  PPath (startswith s [SEP]) (filter (fun c => is_component c = true) (split_sep s)).

(** [a / s]: a rooted right operand replaces the left one. *)
Definition joinpath (a : ppath) (s : str) : ppath :=
  let b := path_of s in
  if p_abs b then b else PPath (p_abs a) (p_parts a ++ p_parts b).

(** Walking components from a directory: [..] goes to the parent, and the
    parent of the root is the root. *)
Fixpoint walk (cur : list str) (parts : list str) : list str :=
  match parts with
  | [] => cur
  | p :: ps =>
      if bool_decide (p = DOTDOT) then walk (removelast cur) ps
      else walk (cur ++ [p]) ps
  end.

Definition has_nul (s : str) : bool := existsb (fun c => c =? NUL) s.

Definition embedded_null : exn := ValueError (lit "embedded null byte").

(** [p.resolve()], not strict: the absolute, normalised path.  A component
    with a null character makes the operating system call inside fail with
    [ValueError]. *)
Definition resolve (cwd : list str) (p : ppath) : result ppath :=
  if existsb has_nul (p_parts p) then Raise embedded_null
  else Ok (PPath true (walk (if p_abs p then [] else cwd) (p_parts p))).

Fixpoint is_prefix (b t : list str) : bool :=
  match b, t with
  | [], _ => true
  | _ :: _, [] => false
  | x :: b', y :: t' => bool_decide (x = y) && is_prefix b' t'
  end.

(** [t.relative_to(b)]: the rest of [t] below [b], or [ValueError]. *)
Definition relative_to (t b : ppath) : result ppath :=
  if Bool.eqb (p_abs t) (p_abs b) && is_prefix (p_parts b) (p_parts t)
  then Ok (PPath false (drop (length (p_parts b)) (p_parts t)))
  else Raise (ValueError (lit "is not in the subpath of")).

(** [os.path.join(a, b)] *)
Definition os_path_join (a b : str) : str :=
  if startswith b [SEP] then b
  else if bool_decide (a = []) || bool_decide (last a = Some SEP) then a ++ b
  else a ++ [SEP] ++ b.

(** [p[:p.rfind('/') + 1]] *)
Fixpoint head_to_last_sep (p : str) : str :=
  match p with
  | [] => []
  | c :: p' =>
      match head_to_last_sep p' with
      | [] => if c =? SEP then [c] else []
      | h => c :: h
      end
  end.

Fixpoint lstrip_sep (s : str) : str :=
  match s with
  | c :: s' => if c =? SEP then lstrip_sep s' else s
  | [] => []
  end.

(** [os.path.dirname(p)] *)
Definition os_path_dirname (p : str) : str :=
  let head := head_to_last_sep p in
  if negb (bool_decide (head = [])) && negb (forallb (fun c => c =? SEP) head)
  then reverse (lstrip_sep (reverse head))
  else head.

(** The node a path string names for the operating system, if the string
    has no null character. *)
Definition os_resolve (cwd : list str) (s : str) : option (list str) :=
  if has_nul s then None
  else let p := path_of s in
       Some (walk (if p_abs p then [] else cwd) (p_parts p)).

End Paths.
Export Paths.

(** ** The world: file system, standard streams, arguments *)

Module World.

Inductive node : Type :=
| Dir
| File (content : str).

Inductive stdin_event : Type :=
| Line (s : str)       (* a line typed by the operator, without its newline *)
| Interrupt.           (* Ctrl-C *)

(** Nodes are named by their absolute, normalised paths; the root is a
    directory and has no entry.  [w_denied] are the nodes the process may
    not open for writing.  [w_stdout] has one entry for each call of
    [print], and one for the prompt of each [input].  An empty [w_stdin]
    is the end of the input. *)
Record world : Type := MkWorld {
  w_argv : list str;
  w_cwd : list str;
  w_fs : gmap (list str) node;
  w_denied : gset (list str);
  w_stdin : list stdin_event;
  w_stdout : list str
}.

Definition set_fs (w : world) (fs : gmap (list str) node) : world :=
  MkWorld (w_argv w) (w_cwd w) fs (w_denied w) (w_stdin w) (w_stdout w).
Definition set_stdin (w : world) (i : list stdin_event) : world :=
  MkWorld (w_argv w) (w_cwd w) (w_fs w) (w_denied w) i (w_stdout w).
Definition set_stdout (w : world) (o : list str) : world :=
  MkWorld (w_argv w) (w_cwd w) (w_fs w) (w_denied w) (w_stdin w) o.

(** Computations that may raise and that change the world. *)
Definition M (A : Type) : Type := world -> result A * world.

Definition ret {A} (a : A) : M A := fun w => (Ok a, w).
Definition raise {A} (e : exn) : M A := fun w => (Raise e, w).
Definition bind {A B} (m : M A) (f : A -> M B) : M B :=
  fun w => match m w with
           | (Ok a, w1) => f a w1
           | (Raise e, w1) => (Raise e, w1)
           end.
Definition lift {A} (r : result A) : M A := fun w => (r, w).

(** [if b: m] as a statement. *)
Definition when (b : bool) (m : M unit) : M unit := if b then m else ret tt.

(** [try: body  except ...: handler]: [handler e] is the clause that
    catches [e], if there is one. *)
Definition try_except {A} (body : M A) (handler : exn -> option (M A)) : M A :=
  fun w => match body w with
           | (Ok a, w1) => (Ok a, w1)
           | (Raise e, w1) =>
               match handler e with
               | Some h => h w1
               | None => (Raise e, w1)
               end
           end.

Definition get_cwd : M (list str) := fun w => (Ok (w_cwd w), w).
Definition get_argv : M (list str) := fun w => (Ok (w_argv w), w).

(** [print(s)] *)
Definition print (s : str) : M unit :=
  fun w => (Ok tt, set_stdout w (w_stdout w ++ [s])).

(** [sys.exit(code)] *)
Definition sys_exit {A} (code : Z) : M A := raise (SystemExit code).

(** [input(prompt)] *)
Definition input (prompt : str) : M str :=
  fun w =>
    let w1 := set_stdout w (w_stdout w ++ [prompt]) in
    match w_stdin w1 with
    | [] => (Raise EOFError, w1)
    | Line s :: rest => (Ok s, set_stdin w1 rest)
    | Interrupt :: rest => (Raise KeyboardInterrupt, set_stdin w1 rest)
    end.

Definition lookup_node (fs : gmap (list str) node) (t : list str) : option node :=
  match t with
  | [] => Some Dir
  | _ => fs !! t
  end.

(** [os.path.isdir(s)] and [os.path.exists(s)]; both answer [False] for a
    string with a null character. *)
Definition os_path_isdir (s : str) : M bool :=
  fun w => match os_resolve (w_cwd w) s with
           | Some t =>
               (Ok (match lookup_node (w_fs w) t with
                    | Some Dir => true
                    | _ => false
                    end), w)
           | None => (Ok false, w)
           end.

Definition os_path_exists (s : str) : M bool :=
  fun w => match os_resolve (w_cwd w) s with
           | Some t =>
               (Ok (match lookup_node (w_fs w) t with
                    | Some _ => true
                    | None => false
                    end), w)
           | None => (Ok false, w)
           end.

(** The directories from [cur] down along [parts], created where missing. *)
Fixpoint mkdirs (fs : gmap (list str) node) (cur : list str) (parts : list str)
    (s : str) : result (gmap (list str) node) :=
  match parts with
  | [] => Ok fs
  | p :: ps =>
      let d := cur ++ [p] in
      match fs !! d with
      | Some (File _) =>
          match ps with
          | [] => Raise (FileExistsError s)
          | _ => Raise (NotADirectoryError s)
          end
      | Some Dir => mkdirs fs d ps s
      | None => mkdirs (<[d := Dir]> fs) d ps s
      end
  end.

(** [os.makedirs(s, exist_ok=True)] *)
Definition os_makedirs (s : str) : M unit :=
  fun w => match os_resolve (w_cwd w) s with
           | None => (Raise embedded_null, w)
           | Some t =>
               match mkdirs (w_fs w) [] t s with
               | Ok fs => (Ok tt, set_fs w fs)
               | Raise e => (Raise e, w)
               end
           end.

(** [with open(s, "w", encoding="utf-8") as f: f.write(content)] *)
Definition open_write (s : str) (content : str) : M unit :=
  fun w => match os_resolve (w_cwd w) s with
           | None => (Raise embedded_null, w)
           | Some t =>
               match lookup_node (w_fs w) t with
               | Some Dir => (Raise (IsADirectoryError s), w)
               | _ =>
                   match lookup_node (w_fs w) (removelast t) with
                   | None => (Raise (FileNotFoundError s), w)
                   | Some (File _) => (Raise (NotADirectoryError s), w)
                   | Some Dir =>
                       if bool_decide (t ∈ w_denied w)
                       then (Raise (PermissionError s), w)
                       else (Ok tt, set_fs w (<[t := File content]> (w_fs w)))
                   end
               end
           end.

(** [with open(s, "r", encoding="utf-8") as f: content = f.read()] *)
Definition read_text (s : str) : M str :=
  fun w => match os_resolve (w_cwd w) s with
           | None => (Raise embedded_null, w)
           | Some t =>
               match lookup_node (w_fs w) t with
               | Some (File content) => (Ok content, w)
               | Some Dir => (Raise (IsADirectoryError s), w)
               | None => (Raise (FileNotFoundError s), w)
               end
           end.

End World.
Export World.


Notation "'do' x <- m ; k" := (bind m (fun x => k))
  (at level 10, x name, m at level 100, k at level 200).
Notation "'do' ' p <- m ; k" := (bind m (fun x => match x with p => k end))
  (at level 10, p pattern, m at level 100, k at level 200).
Notation "'run' m ; k" := (bind m (fun _ => k))
  (at level 10, m at level 100, k at level 200).

(** ** The script *)

Definition ESC : char := 27.
Definition COLOR_RESET : str := Eval cbv in ESC :: lit "[0m".
Definition COLOR_GREEN : str := Eval cbv in ESC :: lit "[92m".
Definition COLOR_BLUE : str := Eval cbv in ESC :: lit "[94m".
Definition COLOR_YELLOW : str := Eval cbv in ESC :: lit "[93m".
Definition COLOR_RED : str := Eval cbv in ESC :: lit "[91m".
Definition BOLD : str := Eval cbv in ESC :: lit "[1m".

(** The current directory is all that [is_safe_path] reads of the world.
    Only [relative_to] is inside the [try]. *)
Definition is_safe_path (cwd : list str) (base_dir file_path : str) : result bool :=
  rbind (resolve cwd (path_of base_dir)) (fun base =>
  rbind (resolve cwd (joinpath base file_path)) (fun target =>
  match relative_to target base with
  | Ok _ => Ok true
  | Raise (ValueError _) => Ok false
  | Raise e => Raise e
  end)).

Fixpoint list_files_loop (files : list section) (output_dir : str)
    (has_unsafe : bool) : M bool :=
  match files with
  | [] => ret has_unsafe
  | (file_path, _) :: files' =>
      do cwd <- get_cwd;
      do safe <- lift (is_safe_path cwd output_dir file_path);
      do ' (status, has_unsafe) <-
        (if negb safe then
           ret (COLOR_RED ++ lit "UNSAFE PATH" ++ COLOR_RESET, true)
         else
           let full_path := os_path_join output_dir file_path in
           do found <- os_path_exists full_path;
           if (found : bool) then
             ret (COLOR_BLUE ++ lit "EXISTING" ++ COLOR_RESET, has_unsafe)
           else
             ret (COLOR_GREEN ++ lit "NEW" ++ COLOR_RESET, has_unsafe));
      run print (lit " - " ++ file_path ++ lit " [" ++ status ++ lit "]");
      list_files_loop files' output_dir has_unsafe
  end.

Definition list_files_status (files : list section) (output_dir : str) : M bool :=
  run print ([NL] ++ BOLD ++ lit "Files detected in input:" ++ COLOR_RESET ++ [NL]);
  do has_unsafe <- list_files_loop files output_dir false;
  run print [];
  ret has_unsafe.

(** One turn of the loop of [write_files], up to the [with] block; it
    yields [full_path]. *)
Definition write_one (output_dir : str) (file_path content : str) : M str :=
  do cwd <- get_cwd;
  do safe <- lift (is_safe_path cwd output_dir file_path);
  run when (negb safe)
        (raise (ValueError (lit "Unsafe path detected: " ++ file_path)));
  let full_path := os_path_join output_dir file_path in
  let dir_path := os_path_dirname full_path in
  run when (negb (bool_decide (dir_path = []))) (os_makedirs dir_path);
  run open_write full_path content;
  ret full_path.

(** The loop of [write_files].  [written_files] is a local variable that
    the handler reads after an exception, so the loop hands it back
    together with its result. *)
Fixpoint write_loop (files : list section) (output_dir : str)
    (written_files : list str) (w : world) : (list str * result unit) * world :=
  match files with
  | [] => ((written_files, Ok tt), w)
  | (file_path, content) :: files' =>
      match write_one output_dir file_path content w with
      | (Raise e, w1) => ((written_files, Raise e), w1)
      | (Ok full_path, w1) =>
          let written_files := written_files ++ [full_path] in
          match print (lit "Written: " ++ full_path) w1 with
          | (Raise e, w2) => ((written_files, Raise e), w2)
          | (Ok _, w2) => write_loop files' output_dir written_files w2
          end
      end
  end.

Fixpoint print_all (lines : list str) : M unit :=
  match lines with
  | [] => ret tt
  | l :: lines' => run print l; print_all lines'
  end.

Definition write_files (files : list section) (output_dir : str) : M unit :=
  fun w =>
    match write_loop files output_dir [] w with
    | ((_, Ok _), w1) =>
        print ([NL] ++ BOLD ++ COLOR_GREEN ++ lit "All files written successfully."
               ++ COLOR_RESET) w1
    | ((written_files, Raise e), w1) =>
        if is_Exception e then
          (run print ([NL] ++ COLOR_RED ++ lit "Error during write: "
                      ++ exn_message e ++ COLOR_RESET);
           run print (COLOR_YELLOW ++ lit "Successfully written files:"
                      ++ COLOR_RESET);
           run print_all (map (fun path => lit " - " ++ path) written_files);
           sys_exit 1) w1
        else (Raise e, w1)
    end.

Section Main.

(** The Unicode case tables behind [str.lower], see [lower]. *)
Variable unicode_lower : str -> str.

Definition main : M unit :=
  do argv <- get_argv;
  run when (bool_decide (length argv < 2)%nat)
        (run print (lit "Usage: python split_project.py <concatenated_file> [output_dir]");
         sys_exit 1);
  let input_file := default [] (argv !! 1%nat) in
  let output_dir :=
    if bool_decide (2 < length argv)%nat then default [] (argv !! 2%nat)
    else lit "." in
  do isdir <- os_path_isdir output_dir;
  run when (negb isdir)
        (run print (COLOR_RED ++ lit "Error: Output directory does not exist: "
                    ++ output_dir ++ COLOR_RESET);
         sys_exit 1);
  do content <-
    try_except (read_text input_file) (fun e =>
      match e with
      | FileNotFoundError _ => Some (
          run print (COLOR_RED ++ lit "Error: Input file not found: "
                     ++ input_file ++ COLOR_RESET);
          sys_exit 1)
      | _ =>
          if is_Exception e then Some (
            run print (COLOR_RED ++ lit "Error reading file: "
                       ++ exn_message e ++ COLOR_RESET);
            sys_exit 1)
          else None
      end);
  let files := parse_concatenated_file content in
  run when (bool_decide (files = []))
        (run print (COLOR_YELLOW
                    ++ lit "No file sections found. Make sure your input uses '===== FILE: path =====' separators."
                    ++ COLOR_RESET);
         sys_exit 0);
  do has_unsafe <- list_files_status files output_dir;
  run when has_unsafe
        (run print (COLOR_RED
                    ++ lit "Unsafe paths detected. Import cancelled for security."
                    ++ COLOR_RESET);
         sys_exit 1);
  do proceed <-
    try_except
      (do answer <- input (BOLD ++ lit "Proceed with import? [Y/n]: " ++ COLOR_RESET);
       ret (lower unicode_lower (strip answer)))
      (fun e =>
         match e with
         | KeyboardInterrupt | EOFError => Some (
             run print ([NL] ++ COLOR_YELLOW ++ lit "Import cancelled." ++ COLOR_RESET);
             sys_exit 0)
         | _ => None
         end);
  run when (bool_decide (proceed = lit "n") || bool_decide (proceed = lit "no"))
        (run print (COLOR_YELLOW ++ lit "Import cancelled." ++ COLOR_RESET);
         sys_exit 0);
  write_files files output_dir.

End Main.

(** ** Notions the specification is stated with *)

(** Whether the position after the text [a] begins a line, when the
    position before it has the flag [bol]. *)
Definition bol_after (bol : bool) (a : str) : bool :=
  match last a with
  | Some c => is_nl c
  | None => bol
  end.

(** No marker begins at a position of [t], which is followed by [rest]. *)
Definition marker_free (bol : bool) (t rest : str) : Prop :=
  forall a b, t = a ++ b -> b <> [] ->
    match_here pattern (bol_after bol a) (b ++ rest) = None.

(** The pattern matches at the beginning of [m ++ rest], the match is [m]
    and its group is [cap]. *)
Definition marker_at (bol : bool) (m cap rest : str) : Prop :=
  exists st, match_here pattern bol (m ++ rest) = Some st
    /\ ms_pos st = length m
    /\ slice (m ++ rest) (fst (ms_group st)) (snd (ms_group st)) = cap.

(** A marker, the text its group captured, and the text that follows it up
    to the next marker or the end of the input. *)
Record chunk : Type := Chunk {
  ck_marker : str;
  ck_capture : str;
  ck_gap : str
}.

Definition chunk_text (c : chunk) : str := ck_marker c ++ ck_gap c.
Definition render (cs : list chunk) : str := concat (map chunk_text cs).

(** The chunks are the markers of the text [render cs], which begins at a
    position with the flag [bol]. *)
Fixpoint layout (bol : bool) (cs : list chunk) : Prop :=
  match cs with
  | [] => True
  | c :: cs' =>
      let bol1 := bol_after bol (ck_marker c) in
      marker_at bol (ck_marker c) (ck_capture c) (ck_gap c ++ render cs')
      /\ marker_free bol1 (ck_gap c) (render cs')
      /\ layout (bol_after bol1 (ck_gap c)) cs'
  end.

(** A text without one leading newline, if it has one. *)
Definition drop_newline (t : str) : str :=
  match t with
  | c :: t' => if is_nl c then t' else t
  | [] => []
  end.

Definition section_of_chunk (c : chunk) : section :=
  (strip (ck_capture c), drop_newline (ck_gap c)).

(** What a regular expression accepts, without the order in which the
    matcher tries the alternatives: [accepts r st st'] when [r] can take the
    matcher from the state [st] to the state [st']. *)
Inductive accepts : regex -> mstate -> mstate -> Prop :=
| acc_empty st : accepts REmpty st st
| acc_bol st : ms_bol st = true -> accepts RBol st st
| acc_eol st : at_eol (ms_rest st) = true -> accepts REol st st
| acc_char c rest st :
    ms_rest st = c :: rest ->
    accepts (RChar c) st (MState (S (ms_pos st)) (is_nl c) rest (ms_group st))
| acc_star_stop g cls st : accepts (RStar g cls) st st
| acc_star_more g cls c rest st st' :
    ms_rest st = c :: rest -> cls c = true ->
    accepts (RStar g cls) (MState (S (ms_pos st)) (is_nl c) rest (ms_group st)) st' ->
    accepts (RStar g cls) st st'
| acc_group r st st1 :
    accepts r st st1 ->
    accepts (RGroup r) st
      (MState (ms_pos st1) (ms_bol st1) (ms_rest st1) (ms_pos st, ms_pos st1))
| acc_seq r1 r2 st st1 st2 :
    accepts r1 st st1 -> accepts r2 st1 st2 -> accepts (RSeq r1 r2) st st2.

(** A text that begins with a marker: the opening, white space, a text
    without newline, white space, the closing, and then the end of a line.
    White space includes the newline. *)
Definition marker_text (s : str) : Prop :=
  exists w1 c w2 tl,
    s = MARKER_OPEN ++ w1 ++ c ++ w2 ++ MARKER_CLOSE ++ tl
    /\ Forall (fun x => is_space x = true) w1
    /\ Forall (fun x => is_dot x = true) c
    /\ Forall (fun x => is_space x = true) w2
    /\ at_eol tl = true.

(** The input has a marker: some line of it begins with one. *)
Definition has_marker (content : str) : Prop :=
  exists a b, content = a ++ b /\ bol_after true a = true /\ marker_text b.

(** The match objects of the chunks, the first of which begins at [pos]. *)
Fixpoint matches_of (pos : nat) (cs : list chunk) : list Match :=
  match cs with
  | [] => []
  | c :: cs' =>
      MkMatch pos (pos + length (ck_marker c)) (ck_capture c)
      :: matches_of (pos + length (chunk_text c)) cs'
  end.

(** [marker_free], decided. *)
Fixpoint marker_freeb (bol : bool) (t rest : str) : bool :=
  match t with
  | [] => true
  | c :: t' =>
      match match_here pattern bol (t ++ rest) with
      | None => marker_freeb (is_nl c) t' rest
      | Some _ => false
      end
  end.


(** A current directory as the operating system reports it: normalised,
    and without null characters. *)
Definition wf_cwd (cwd : list str) : Prop :=
  Forall (fun c => c <> DOTDOT /\ has_nul c = false) cwd.

(** The resolved path [t] is at or below the resolved path [b]. *)
Definition contained (b t : ppath) : Prop :=
  exists rel, p_parts t = p_parts b ++ rel.

(** The arguments of a run. *)
Definition input_of (w : world) : str := default [] (w_argv w !! 1%nat).
Definition output_of (w : world) : str :=
  if bool_decide (2 < length (w_argv w))%nat then default [] (w_argv w !! 2%nat)
  else lit ".".

(** A run gets as far as parsing: the input file is named, the output
    directory exists, and the input file is read as [content]. *)
Definition started (w : world) (content : str) : Prop :=
  (2 <= length (w_argv w))%nat
  /\ os_path_isdir (output_of w) w = (Ok true, w)
  /\ read_text (input_of w) w = (Ok content, w).

(** A run gets as far as the confirmation prompt with the sections [files],
    in the world [w1]: there are sections, and the listing finds no unsafe
    path. *)
Definition prompted (w : world) (files : list section) (w1 : world) : Prop :=
  exists content,
    started w content
    /\ files = parse_concatenated_file content
    /\ files <> []
    /\ list_files_status files (output_of w) w = (Ok false, w1).

(** The only difference between [w] and [w'] is that more was printed. *)
Definition quiet (w w' : world) : Prop :=
  exists out, w' = set_stdout w (w_stdout w ++ out).

Definition PROMPT : str := BOLD ++ lit "Proceed with import? [Y/n]: " ++ COLOR_RESET.

(** The world after the operator was asked and [rest] of the input is left. *)
Definition asked (w1 : world) (rest : list stdin_event) : world :=
  set_stdin (set_stdout w1 (w_stdout w1 ++ [PROMPT])) rest.

(** What the operator does at the prompt that counts as declining. *)
Inductive declined (unicode_lower : str -> str) : list stdin_event -> Prop :=
| declined_n a rest :
    lower unicode_lower (strip a) = lit "n" ->
    declined unicode_lower (Line a :: rest)
| declined_no a rest :
    lower unicode_lower (strip a) = lit "no" ->
    declined unicode_lower (Line a :: rest)
| declined_interrupt rest : declined unicode_lower (Interrupt :: rest)
| declined_eof : declined unicode_lower [].

(** The sections [files] are written one after the other, without error,
    from the world [w] to the world [w']; [fps] are the paths reported. *)
Inductive written_run (output_dir : str)
    : list section -> world -> list str -> world -> Prop :=
| run_nil w : written_run output_dir [] w [] w
| run_cons p c files w fp w1 fps w2 :
    write_one output_dir p c w = (Ok fp, w1) ->
    written_run output_dir files
      (set_stdout w1 (w_stdout w1 ++ [lit "Written: " ++ fp])) fps w2 ->
    written_run output_dir ((p, c) :: files) w (fp :: fps) w2.

(** The node the section with the path [p] is written to. *)
Definition target_of (w : world) (output_dir p : str) : option (list str) :=
  os_resolve (w_cwd w) (os_path_join output_dir p).

(** What [write_files] prints after the error [e], [fps] being written. *)
Definition failure_report (e : exn) (fps : list str) : list str :=
  [[NL] ++ COLOR_RED ++ lit "Error during write: " ++ exn_message e ++ COLOR_RESET;
   COLOR_YELLOW ++ lit "Successfully written files:" ++ COLOR_RESET]
  ++ map (fun path => lit " - " ++ path) fps.

Definition SUCCESS : str :=
  [NL] ++ BOLD ++ COLOR_GREEN ++ lit "All files written successfully." ++ COLOR_RESET.

(** The divider as the header of the script shows it:
    [===== FILE: path =====]. *)
Definition marker_line (p : str) : str :=
  MARKER_OPEN ++ [32] ++ p ++ [32] ++ MARKER_CLOSE.

(** A path on one line, without white space around it. *)
Definition clean_path (p : str) : Prop :=
  Forall (fun c => is_dot c = true) p
  /\ (forall x, head p = Some x -> is_space x = false)
  /\ (forall x, last p = Some x -> is_space x = false).

(** A content none of whose lines begins like a divider. *)
Definition plain (body : str) : Prop :=
  forall a b, body = a ++ b -> bol_after true a = true ->
    startswith b MARKER_OPEN = false.

(** The artifact for some sections: each content after its divider line. *)
Fixpoint concatenate (sections : list section) : str :=
  match sections with
  | [] => []
  | (p, body) :: rest => marker_line p ++ [NL] ++ body ++ concatenate rest
  end.

(** Sections that can be told apart again: the paths are clean, the
    contents are plain, and every content but the last ends its line. *)
Fixpoint separable (sections : list section) : Prop :=
  match sections with
  | [] => True
  | (p, body) :: rest =>
      clean_path p /\ plain body
      /\ (rest = [] \/ body = [] \/ last body = Some NL)
      /\ separable rest
  end.

(** The chunks of [concatenate sections]. *)
Definition chunks_of (sections : list section) : list chunk :=
  map (fun s => Chunk (marker_line s.1) s.1 (NL :: s.2)) sections.

(** [plain], decided by a scan over the lines. *)
Fixpoint plainb (bol : bool) (body : str) : bool :=
  match body with
  | [] => true
  | c :: body' =>
      (if bol then negb (startswith body MARKER_OPEN) else true)
      && plainb (is_nl c) body'
  end.

(** What it is for one section to be written, said with the operations on
    the world and not with [write_one].  The section is written without
    error from [w] to [w1] when its path passes the safety check, the
    directory of its full path [fp], if it names one, is made, and the file
    is opened and its content written. *)
Definition section_written (output_dir : str) (s : section)
    (w : world) (fp : str) (w1 : world) : Prop :=
  is_safe_path (w_cwd w) output_dir s.1 = Ok true
  /\ fp = os_path_join output_dir s.1
  /\ exists wd,
       (if bool_decide (os_path_dirname fp = []) then wd = w
        else os_makedirs (os_path_dirname fp) w = (Ok tt, wd))
       /\ open_write fp s.2 wd = (Ok tt, w1).

(** The section fails with the error [e] and leaves the world [w2]: its
    path is unsafe (a [ValueError], nothing is touched), the safety check
    itself raises (nothing is touched), making the directory fails, or
    opening and writing the file fails. *)
Definition section_fails (output_dir : str) (s : section)
    (w : world) (e : exn) (w2 : world) : Prop :=
  let fp := os_path_join output_dir s.1 in
  (is_safe_path (w_cwd w) output_dir s.1 = Ok false
   /\ e = ValueError (lit "Unsafe path detected: " ++ s.1) /\ w2 = w)
  \/ (is_safe_path (w_cwd w) output_dir s.1 = Raise e /\ w2 = w)
  \/ (is_safe_path (w_cwd w) output_dir s.1 = Ok true
      /\ os_path_dirname fp <> []
      /\ os_makedirs (os_path_dirname fp) w = (Raise e, w2))
  \/ (is_safe_path (w_cwd w) output_dir s.1 = Ok true
      /\ exists wd,
           (if bool_decide (os_path_dirname fp = []) then wd = w
            else os_makedirs (os_path_dirname fp) w = (Ok tt, wd))
           /\ open_write fp s.2 wd = (Raise e, w2)).

(** The sections [files] are written one after the other without error,
    each followed by its line [Written: ...]; [fps] are their full paths. *)
Inductive writes (output_dir : str)
    : list section -> world -> list str -> world -> Prop :=
| writes_nil w : writes output_dir [] w [] w
| writes_cons s files w fp w1 fps w2 :
    section_written output_dir s w fp w1 ->
    writes output_dir files
      (set_stdout w1 (w_stdout w1 ++ [lit "Written: " ++ fp])) fps w2 ->
    writes output_dir (s :: files) w (fp :: fps) w2.

(** Sections of which the second has an unsafe path. *)
Definition failing_example : list section :=
  [(lit "ok.txt", lit "fine"); (lit "../secret.txt", lit "stolen");
   (lit "later.txt", lit "never")].

(** [s.split('\n')]: the lines of a text. *)
Fixpoint split_nl (s : str) : list str :=
  match s with
  | [] => [[]]
  | c :: s' =>
      if is_nl c then [] :: split_nl s'
      else match split_nl s' with
           | x :: xs => (c :: x) :: xs
           | [] => [[c]]
           end
  end.

(** The line [l], taken alone, is matched by the pattern: it is a marker
    line. *)
Definition marker_lineb (l : str) : bool :=
  match match_here pattern true l with
  | Some _ => true
  | None => false
  end.

(** The messages of [main] before the input is parsed. *)
Definition USAGE : str :=
  lit "Usage: python split_project.py <concatenated_file> [output_dir]".
Definition no_output_dir (output_dir : str) : str :=
  COLOR_RED ++ lit "Error: Output directory does not exist: "
  ++ output_dir ++ COLOR_RESET.
Definition read_failure (input_file : str) (e : exn) : str :=
  match e with
  | FileNotFoundError _ =>
      COLOR_RED ++ lit "Error: Input file not found: " ++ input_file ++ COLOR_RESET
  | _ =>
      COLOR_RED ++ lit "Error reading file: " ++ exn_message e ++ COLOR_RESET
  end.

(** The world [w] after the line [s] was printed. *)
Definition printed (w : world) (s : str) : world :=
  set_stdout w (w_stdout w ++ [s]).

(** ** Examples *)

(** The example of the specification. *)
Definition spec_example : str := Eval cbv in
  lit "===== FILE: a.txt =====" ++ [NL] ++ lit "hello" ++ [NL] ++
  lit "===== FILE: b/c.txt =====" ++ [NL] ++ lit "world".

Definition spec_example_chunks : list chunk := Eval cbv in
  [Chunk (lit "===== FILE: a.txt =====") (lit "a.txt") ([NL] ++ lit "hello" ++ [NL]);
   Chunk (lit "===== FILE: b/c.txt =====") (lit "b/c.txt") ([NL] ++ lit "world")].

(** An input with a safe and an unsafe path. *)
Definition unsafe_example : str := Eval cbv in
  lit "===== FILE: ok.txt =====" ++ [NL] ++ lit "fine" ++ [NL] ++
  lit "===== FILE: ../secret.txt =====" ++ [NL] ++ lit "stolen".

(** An input without marker. *)
Definition plain_example : str := Eval cbv in
  lit "just some text" ++ [NL] ++ lit "===== FILE: a.txt" ++ [NL].

(** Two lines, neither of which is a marker line. *)
Definition two_line_example : str := Eval cbv in
  lit "===== FILE: a" ++ [NL] ++ lit "=====".

(** An unfinished divider line, a marker line for the path [b], and a
    content. *)
Definition swallow_example : str := Eval cbv in
  lit "===== FILE:" ++ [NL] ++ lit "===== FILE: b =====" ++ [NL] ++ lit "x".

(** A world: the script is run as [splitter.py in.txt out] in [/home],
    where [in.txt] holds [content] and [out] is an empty directory. *)
Definition example_world (content : str) (stdin : list stdin_event) : world :=
  MkWorld [lit "splitter.py"; lit "in.txt"; lit "out"]
          [lit "home"]
          (<[ [lit "home"; lit "in.txt"] := File content ]>
             (<[ [lit "home"; lit "out"] := Dir ]>
                (<[ [lit "home"] := Dir ]> ∅)))
          ∅ stdin [].

(** Sections of which two name the same file. *)
Definition duplicate_example : list section :=
  [(lit "a.txt", lit "first"); (lit "b.txt", lit "other"); (lit "a.txt", lit "second")].

(** * Proofs *)

(** ** The scan of [finditer] *)

Lemma bol_after_nil bol : bol_after bol [] = bol.
Proof. reflexivity. Qed.

Lemma bol_after_cons bol c a : bol_after bol (c :: a) = bol_after (is_nl c) a.
Proof.
  unfold bol_after. destruct a as [|d a]; [reflexivity|].
  rewrite last_cons_cons. destruct (last (d :: a)) eqn:E; [reflexivity|].
  apply last_None in E. discriminate.
Qed.

Lemma bol_after_app bol a b :
  bol_after bol (a ++ b) = bol_after (bol_after bol a) b.
Proof.
  revert bol. induction a as [|c a IH]; intros bol; [reflexivity|].
  simpl. rewrite !bol_after_cons. apply IH.
Qed.

Lemma marker_free_nil bol rest : marker_free bol [] rest.
Proof.
  intros a b E Hb. symmetry in E. apply app_eq_nil in E as [_ ->]. done.
Qed.

Lemma marker_free_cons bol c t rest :
  marker_free bol (c :: t) rest ->
  match_here pattern bol (c :: t ++ rest) = None
  /\ marker_free (is_nl c) t rest.
Proof.
  intros H. split.
  - apply (H [] (c :: t)); done.
  - intros a b E Hb. rewrite <- (bol_after_cons bol).
    apply H; [|done]. by rewrite E.
Qed.

(** A stretch without markers is passed over. *)
Lemma finditer_marker_free t : forall pos bol rest,
  marker_free bol t rest ->
  finditer_from pattern pos bol 0 (t ++ rest)
  = finditer_from pattern (pos + length t) (bol_after bol t) 0 rest.
Proof.
  induction t as [|c t IH]; intros pos bol rest H.
  - simpl. by rewrite Nat.add_0_r.
  - apply marker_free_cons in H as [H0 H1].
    cbn [app finditer_from]. rewrite H0, (IH _ _ _ H1), bol_after_cons.
    f_equal. simpl. lia.
Qed.

(** The characters of the match found last are passed over. *)
Lemma finditer_skip m : forall pos bol rest,
  finditer_from pattern pos bol (length m) (m ++ rest)
  = finditer_from pattern (pos + length m) (bol_after bol m) 0 rest.
Proof.
  induction m as [|c m IH]; intros pos bol rest.
  - simpl. by rewrite Nat.add_0_r.
  - cbn [app length finditer_from]. rewrite IH, bol_after_cons.
    f_equal. lia.
Qed.

(** ** The matcher and what the pattern accepts *)

Lemma mstate_eta st :
  MState (ms_pos st) (ms_bol st) (ms_rest st) (ms_group st) = st.
Proof. by destruct st. Qed.

Lemma star_sound g cls k res rest : forall pos bol gr,
  star g cls k pos bol gr rest = Some res ->
  exists st', accepts (RStar g cls) (MState pos bol rest gr) st'
    /\ k st' = Some res.
Proof.
  induction rest as [|c rest IH]; intros pos bol gr H; simpl in H.
  - eexists; split; [apply acc_star_stop | done].
  - destruct (cls c) eqn:Hc; [|eexists; split; [apply acc_star_stop | done]].
    assert (Hmore :
      star g cls k (S pos) (is_nl c) gr rest = Some res ->
      exists st', accepts (RStar g cls) (MState pos bol (c :: rest) gr) st'
        /\ k st' = Some res).
    { intros Hr. destruct (IH _ _ _ Hr) as (st' & Ha & Hk).
      exists st'. split; [|done].
      by apply (acc_star_more g cls c rest (MState pos bol (c :: rest) gr)). }
    destruct g.
    + destruct (star true cls k (S pos) (is_nl c) gr rest) eqn:E.
      * injection H as ->. by apply Hmore.
      * eexists; split; [apply acc_star_stop | done].
    + destruct (k (MState pos bol (c :: rest) gr)) eqn:E.
      * injection H as ->. eexists; split; [apply acc_star_stop | done].
      * by apply Hmore.
Qed.

(** What the matcher finds is accepted. *)
Lemma rmatch_sound r : forall st k res,
  rmatch r st k = Some res ->
  exists st', accepts r st st' /\ k st' = Some res.
Proof.
  induction r as [| | |c|g cls|r IH|r1 IH1 r2 IH2]; intros st k res H; simpl in H.
  - exists st. split; [constructor | done].
  - destruct (ms_bol st) eqn:E; [|done]. exists st. split; [by constructor | done].
  - destruct (at_eol (ms_rest st)) eqn:E; [|done].
    exists st. split; [by constructor | done].
  - destruct (ms_rest st) as [|c' rest] eqn:E; [done|].
    destruct (c =? c') eqn:Ec; [|done]. apply N.eqb_eq in Ec as <-.
    eexists. split; [by apply acc_char | done].
  - apply star_sound in H. by rewrite mstate_eta in H.
  - apply IH in H as (st1 & Ha & Hk). eexists. split; [by apply acc_group | done].
  - apply IH1 in H as (st1 & Ha1 & H). apply IH2 in H as (st2 & Ha2 & Hk).
    exists st2. split; [by eapply acc_seq | done].
Qed.

(** What is accepted makes the matcher find something, provided the
    continuation agrees to it. *)
Lemma rmatch_complete r st st' :
  accepts r st st' ->
  forall k, is_Some (k st') -> is_Some (rmatch r st k).
Proof.
  induction 1 as [st|st Hb|st He|c rest st Hr|g cls st
                 |g cls c rest st st' Hr Hc Ha IH|r st st1 Ha IH
                 |r1 r2 st st1 st2 Ha1 IH1 Ha2 IH2]; intros k Hk; simpl.
  - done.
  - by rewrite Hb.
  - by rewrite He.
  - by rewrite Hr, N.eqb_refl.
  - destruct st as [pos bol [|c rest] gr]; simpl; [done|].
    destruct (cls c); [|done]. destruct g.
    + by destruct (star true cls k _ _ _ rest).
    + by destruct (k _).
  - destruct st as [pos bol rest0 gr]. simpl in *. subst rest0. simpl.
    rewrite Hc. specialize (IH k Hk). simpl in IH. destruct g.
    + by destruct (star true cls k _ _ _ rest).
    + destruct (k (MState pos bol (c :: rest) gr)); [done | exact IH].
  - apply IH. exact Hk.
  - apply IH1. apply IH2. exact Hk.
Qed.

Lemma accepts_rlit l : forall pos bol rest gr,
  accepts (rlit l) (MState pos bol (l ++ rest) gr)
          (MState (pos + length l) (bol_after bol l) rest gr).
Proof.
  induction l as [|c l IH]; intros pos bol rest gr; simpl.
  - rewrite Nat.add_0_r. constructor.
  - eapply acc_seq; [by apply acc_char|]. simpl.
    rewrite bol_after_cons, <- Nat.add_succ_comm. apply IH.
Qed.

Lemma accepts_star g cls w :
  Forall (fun c => cls c = true) w ->
  forall pos bol rest gr,
    accepts (RStar g cls) (MState pos bol (w ++ rest) gr)
            (MState (pos + length w) (bol_after bol w) rest gr).
Proof.
  induction 1 as [|c w Hc Hw IH]; intros pos bol rest gr; simpl.
  - rewrite Nat.add_0_r. constructor.
  - eapply acc_star_more; [done | done |]. simpl.
    rewrite bol_after_cons, <- Nat.add_succ_comm. apply IH.
Qed.

Lemma accepts_rlit_inv l : forall st st',
  accepts (rlit l) st st' ->
  ms_rest st = l ++ ms_rest st'
  /\ ms_pos st' = (ms_pos st + length l)%nat
  /\ ms_bol st' = bol_after (ms_bol st) l
  /\ ms_group st' = ms_group st.
Proof.
  induction l as [|c l IH]; intros st st' H; simpl in H.
  - inversion H; subst. rewrite Nat.add_0_r. done.
  - inversion H as [| | | | | | |r1 r2 s0 st1 s2 H1 H2]; subst.
    inversion H1 as [| | |c0 rest s0 Hr| | | |]; subst.
    apply IH in H2 as (E1 & E2 & E3 & E4). simpl in *.
    rewrite Hr, E1, E2, E3, E4, bol_after_cons. repeat split; try done.
Qed.

Lemma accepts_star_inv g cls st st' :
  accepts (RStar g cls) st st' ->
  exists w, Forall (fun c => cls c = true) w
    /\ ms_rest st = w ++ ms_rest st'
    /\ ms_pos st' = (ms_pos st + length w)%nat
    /\ ms_bol st' = bol_after (ms_bol st) w
    /\ ms_group st' = ms_group st.
Proof.
  remember (RStar g cls) as r eqn:Er. intros H.
  induction H as [| | | |g0 cls0 st|g0 cls0 c rest st st' Hr Hc Ha IH| |];
    try discriminate.
  - exists []. rewrite Nat.add_0_r. done.
  - destruct (IH Er) as (w & Hw & E1 & E2 & E3 & E4). injection Er as -> ->.
    simpl in *. exists (c :: w). rewrite bol_after_cons. simpl.
    repeat split; [by constructor | by rewrite Hr, E1 | lia | done | done].
Qed.

Ltac inv_seq H H1 :=
  let H2 := fresh "Hs" in
  inversion H as [| | | | | | |? ? ? ? ? H1 H2]; subst; clear H; rename H2 into H.

(** A match of the pattern begins a line and is a marker text; the match
    ends where the line ends, and the group is the text between the two
    runs of white space. *)
Lemma marker_sound bol s st :
  match_here pattern bol s = Some st ->
  bol = true /\ exists w1 c w2,
    s = MARKER_OPEN ++ w1 ++ c ++ w2 ++ MARKER_CLOSE ++ ms_rest st
    /\ Forall (fun x => is_space x = true) w1
    /\ Forall (fun x => is_dot x = true) c
    /\ Forall (fun x => is_space x = true) w2
    /\ at_eol (ms_rest st) = true
    /\ ms_pos st = (11 + length w1 + length c + length w2 + 5)%nat
    /\ ms_group st = ((11 + length w1)%nat, (11 + length w1 + length c)%nat).
Proof.
  unfold match_here, pattern. intros H.
  apply rmatch_sound in H as (st' & Ha & [= ->]).
  inv_seq Ha Hbol. inversion Hbol as [|? Hb| | | | | |]; subst; clear Hbol.
  inv_seq Ha Hopen. apply (accepts_rlit_inv MARKER_OPEN) in Hopen as (O1 & O2 & O3 & O4).
  inv_seq Ha Hw1. apply accepts_star_inv in Hw1 as (w1 & Fw1 & A1 & A2 & A3 & A4).
  inv_seq Ha Hg. inversion Hg as [| | | | | |? ? sg Hc|]; subst; clear Hg.
  apply accepts_star_inv in Hc as (c & Fc & C1 & C2 & C3 & C4).
  inv_seq Ha Hw2. apply accepts_star_inv in Hw2 as (w2 & Fw2 & B1 & B2 & B3 & B4).
  inv_seq Ha Hclose. apply (accepts_rlit_inv MARKER_CLOSE) in Hclose as (D1 & D2 & D3 & D4).
  inversion Ha as [| |? He| | | | |]; subst; clear Ha.
  simpl in *. split; [done|]. exists w1, c, w2.
  rewrite O1, A1, C1, B1, D1. repeat split; try done.
  - rewrite D2, B2, C2, A2, O2. simpl. lia.
  - rewrite D4, B4. simpl. f_equal; rewrite ?C2, A2, O2; simpl; lia.
Qed.

(** Where a line begins with a marker text the pattern matches. *)
Lemma marker_complete s :
  marker_text s -> is_Some (match_here pattern true s).
Proof.
  intros (w1 & c & w2 & tl & -> & Fw1 & Fc & Fw2 & He).
  unfold match_here.
  eapply rmatch_complete; [|by eexists].
  unfold pattern.
  eapply acc_seq; [by apply acc_bol|].
  eapply acc_seq; [apply (accepts_rlit MARKER_OPEN)|].
  eapply acc_seq; [by apply accepts_star|].
  eapply acc_seq; [apply acc_group; by apply accepts_star|].
  eapply acc_seq; [by apply accepts_star|].
  eapply acc_seq; [apply (accepts_rlit MARKER_CLOSE)|].
  by apply acc_eol.
Qed.

Lemma match_here_pos bol s st :
  match_here pattern bol s = Some st -> (0 < ms_pos st)%nat.
Proof.
  intros H. apply marker_sound in H as (_ & w1 & c & w2 & _ & _ & _ & _ & _ & -> & _).
  lia.
Qed.

Lemma match_here_nil bol : match_here pattern bol [] = None.
Proof. by destruct bol. Qed.

(** ** The parser on a laid out input *)

Lemma render_cons c cs :
  render (c :: cs) = ck_marker c ++ ck_gap c ++ render cs.
Proof. unfold render, chunk_text. simpl. by rewrite <- (assoc_L (++)). Qed.

Lemma finditer_layout cs : forall pos bol,
  layout bol cs ->
  finditer_from pattern pos bol 0 (render cs) = matches_of pos cs.
Proof.
  induction cs as [|c cs IH]; intros pos bol H.
  - simpl. by rewrite match_here_nil.
  - destruct H as ((st & Hm & Hp & Hg) & Hfree & Hrest).
    pose proof (match_here_pos _ _ _ Hm) as Hpos.
    unfold render in *. cbn [map concat matches_of]. unfold chunk_text at 1.
    rewrite <- (assoc_L (++)). fold (render cs) in *.
    destruct (ck_marker c) as [|x m] eqn:Em; [simpl in Hp; lia|].
    simpl in Hfree, Hrest. rewrite bol_after_cons in Hfree, Hrest.
    cbn [app finditer_from]. simpl in Hm. rewrite Hm. f_equal.
    + unfold to_match. rewrite Hp. f_equal. exact Hg.
    + rewrite Hp. cbn [length Nat.pred]. rewrite finditer_skip.
      rewrite (finditer_marker_free _ _ _ _ Hfree), (IH _ _ Hrest).
      f_equal. unfold chunk_text. rewrite Em, length_app. simpl. lia.
Qed.

Lemma length_matches_of cs pos : length (matches_of pos cs) = length cs.
Proof. revert pos. induction cs as [|c cs IH]; intros pos; simpl; by rewrite ?IH. Qed.

Lemma slice_middle (a g r : str) :
  slice (a ++ g ++ r) (length a) (length a + length g) = g.
Proof.
  unfold slice. rewrite drop_app_length.
  replace (length a + length g - length a)%nat with (length g) by lia.
  by rewrite take_app_length.
Qed.

Lemma drop_newline_eq (g : str) :
  (if startswith g [NL] then drop 1 g else g) = drop_newline g.
Proof.
  destruct g as [|b g]; [done|].
  change (startswith (b :: g) [NL]) with ((NL =? b) && true).
  cbn [drop_newline drop]. unfold is_nl.
  rewrite (N.eqb_sym b NL), andb_true_r. by destruct (NL =? b).
Qed.

Lemma parse_sections cs : forall ms0 pfx content matches,
  content = pfx ++ render cs ->
  matches = ms0 ++ matches_of (length pfx) cs ->
  imap (fun i => parse_section content matches (length ms0 + i))
       (matches_of (length pfx) cs)
  = map section_of_chunk cs.
Proof.
  induction cs as [|c cs IH]; intros ms0 pfx content matches Ec Em; [done|].
  cbn [matches_of map imap]. f_equal.
  - unfold parse_section, section_of_chunk. cbn [m_group1 m_end]. f_equal.
    rewrite drop_newline_eq. f_equal.
    assert (Elen : length matches = (length ms0 + S (length cs))%nat).
    { rewrite Em, length_app. simpl. by rewrite length_matches_of. }
    assert (Econt : content = (pfx ++ ck_marker c) ++ ck_gap c ++ render cs).
    { rewrite Ec. unfold render. simpl. unfold chunk_text at 1.
      by rewrite <- !(assoc_L (++)). }
    replace (length pfx + length (ck_marker c))%nat
      with (length (pfx ++ ck_marker c)) by (by rewrite length_app).
    destruct cs as [|c2 cs]; simpl in Elen.
    + rewrite bool_decide_false by lia.
      rewrite Econt at 1. unfold render. simpl. rewrite app_nil_r.
      rewrite <- (app_nil_r (ck_gap c)) at 1.
      replace (length content) with
        (length (pfx ++ ck_marker c) + length (ck_gap c))%nat.
      * apply slice_middle.
      * rewrite Econt. unfold render. simpl. rewrite !length_app. simpl. lia.
    + rewrite bool_decide_true by lia.
      rewrite Em. rewrite lookup_app_r by lia.
      replace (length ms0 + 0 + 1 - length ms0)%nat with 1%nat by lia.
      cbn [matches_of lookup list_lookup from_option m_start].
      rewrite Econt at 1.
      replace (length pfx + length (chunk_text c))%nat
        with (length (pfx ++ ck_marker c) + length (ck_gap c))%nat
        by (unfold chunk_text; rewrite !length_app; lia).
      apply slice_middle.
  - rewrite <- (length_app pfx (chunk_text c)).
    rewrite <- (IH (ms0 ++ [MkMatch (length pfx)
                     (length pfx + length (ck_marker c)) (ck_capture c)])
                  (pfx ++ chunk_text c) content matches).
    + apply imap_ext. intros i x _. simpl.
      f_equal. rewrite length_app. simpl. lia.
    + rewrite Ec. unfold render. simpl. by rewrite <- (assoc_L (++)).
    + rewrite Em. simpl. rewrite <- (assoc_L (++)). simpl.
      by rewrite length_app.
Qed.

(** An input that consists of a text without markers followed by N
    markers, each with the text up to the next marker or the end of the
    input, is parsed into exactly N sections, in the order of the markers:
    the path of a section is the captured text of its marker, stripped, and
    its content is the text between the end of its marker and the
    beginning of the next one (the end of the input for the last), without
    one leading newline if there is one, and with its end untouched. *)
Theorem parse_markers_in_order (pre : str) (cs : list chunk) :
  marker_free true pre (render cs) ->
  layout (bol_after true pre) cs ->
  parse_concatenated_file (pre ++ render cs) = map section_of_chunk cs
  /\ length (parse_concatenated_file (pre ++ render cs)) = length cs.
Proof.
  intros Hpre Hlay.
  assert (E : parse_concatenated_file (pre ++ render cs) = map section_of_chunk cs).
  { unfold parse_concatenated_file, finditer.
    rewrite (finditer_marker_free pre 0 true (render cs) Hpre).
    rewrite (finditer_layout cs _ _ Hlay). simpl.
    destruct (matches_of (length pre) cs) eqn:E.
    - destruct cs; [done | discriminate].
    - rewrite <- E.
      apply (parse_sections cs [] pre (pre ++ render cs) (matches_of (length pre) cs));
        done. }
  split; [exact E|]. by rewrite E, length_map.
Qed.

Lemma marker_freeb_true t : forall bol rest,
  marker_freeb bol t rest = true -> marker_free bol t rest.
Proof.
  induction t as [|c t IH]; intros bol rest H; [apply marker_free_nil|].
  simpl in H. destruct (match_here pattern bol (c :: t ++ rest)) eqn:E; [done|].
  intros [|x a] b Eab Hb.
  - simpl in *. by subst b.
  - injection Eab as <- ->. rewrite bol_after_cons. by apply IH.
Qed.

(** Every input is laid out in exactly the way [parse_markers_in_order]
    asks for. *)
Lemma layout_exists (n : nat) : forall s bol,
  (length s <= n)%nat ->
  exists pre cs, s = pre ++ render cs
    /\ marker_free bol pre (render cs)
    /\ layout (bol_after bol pre) cs.
Proof.
  induction n as [|n IH]; intros s bol Hn.
  - destruct s; [|simpl in Hn; lia].
    exists [], []. repeat split. apply marker_free_nil.
  - destruct s as [|x s].
    { exists [], []. repeat split. apply marker_free_nil. }
    destruct (match_here pattern bol (x :: s)) as [st|] eqn:Em.
    + pose proof (match_here_pos _ _ _ Em) as Hpos.
      pose proof (marker_sound _ _ _ Em)
        as (_ & w1 & c & w2 & Es & _ & _ & _ & _ & Ep & _).
      remember (MARKER_OPEN ++ w1 ++ c ++ w2 ++ MARKER_CLOSE) as m eqn:Hm.
      assert (Esm : x :: s = m ++ ms_rest st).
      { rewrite Es, Hm. by rewrite <- !(assoc_L (++)). }
      assert (Elm : length m = ms_pos st).
      { rewrite Hm, Ep, !length_app. simpl. lia. }
      destruct (IH (ms_rest st) (bol_after bol m)) as (gap & cs & Er & Hfree & Hlay).
      { apply (f_equal length) in Esm. rewrite length_app in Esm.
        simpl in *. lia. }
      exists [], (Chunk m (slice (x :: s) (fst (ms_group st)) (snd (ms_group st))) gap :: cs).
      split; [|split; [apply marker_free_nil|]].
      * rewrite render_cons. cbn [ck_marker ck_gap app]. by rewrite <- Er.
      * cbn [layout ck_marker ck_gap ck_capture bol_after last].
        split; [|done]. exists st. by rewrite <- Er, <- Esm.
    + destruct (IH s (is_nl x)) as (pre & cs & Er & Hfree & Hlay).
      { simpl in Hn. lia. }
      exists (x :: pre), cs. rewrite bol_after_cons. split; [by rewrite Er|].
      split; [|done]. intros [|y a] b Eab Hb.
      * simpl in *. subst b. simpl. by rewrite <- Er.
      * injection Eab as <- ->. rewrite bol_after_cons. by apply Hfree.
Qed.

Lemma no_marker_free content :
  ~ has_marker content -> marker_free true content [].
Proof.
  intros Hno a b E Hb.
  destruct (match_here pattern (bol_after true a) (b ++ [])) as [st|] eqn:Em; [|done].
  exfalso. apply Hno.
  apply marker_sound in Em as (Hbol & w1 & c & w2 & Es & F1 & F2 & F3 & He & _).
  exists a, b. split; [done|]. split; [done|].
  exists w1, c, w2, (ms_rest st). by rewrite app_nil_r in Es.
Qed.

Lemma parse_no_marker content :
  ~ has_marker content -> parse_concatenated_file content = [].
Proof.
  intros H. apply no_marker_free in H.
  unfold parse_concatenated_file, finditer.
  rewrite <- (app_nil_r content) at 1.
  rewrite (finditer_marker_free content 0 true [] H). simpl.
  by rewrite match_here_nil.
Qed.

(** ** The text before the first marker *)



Lemma parse_unfold content :
  parse_concatenated_file content
  = imap (parse_section content (finditer pattern content))
         (finditer pattern content).
Proof. unfold parse_concatenated_file. by destruct (finditer pattern content). Qed.


(** ** The path safety check *)

Lemma is_prefix_spec b t : is_prefix b t = true <-> exists rel, t = b ++ rel.
Proof.
  revert t. induction b as [|x b IH]; intros t; simpl.
  - split; [by exists t | done].
  - destruct t as [|y t]; [split; [done | by intros [rel ?]]|].
    rewrite andb_true_iff, bool_decide_eq_true, IH. split.
    + intros [-> [rel ->]]. by exists rel.
    + intros [rel [= -> ->]]. split; [done | by exists rel].
Qed.

Lemma resolve_abs cwd p q : resolve cwd p = Ok q -> p_abs q = true.
Proof.
  unfold resolve. destruct (existsb has_nul (p_parts p)); [done|].
  by intros [= <-].
Qed.

Lemma is_safe_path_resolved cwd base_dir file_path base target :
  resolve cwd (path_of base_dir) = Ok base ->
  resolve cwd (joinpath base file_path) = Ok target ->
  is_safe_path cwd base_dir file_path
  = Ok (is_prefix (p_parts base) (p_parts target)).
Proof.
  intros Hb Ht. unfold is_safe_path. rewrite Hb. simpl. rewrite Ht. simpl.
  unfold relative_to.
  rewrite (resolve_abs _ _ _ Hb), (resolve_abs _ _ _ Ht). simpl.
  by destruct (is_prefix (p_parts base) (p_parts target)).
Qed.

Lemma is_safe_path_inv cwd base_dir file_path b :
  is_safe_path cwd base_dir file_path = Ok b ->
  exists base target,
    resolve cwd (path_of base_dir) = Ok base
    /\ resolve cwd (joinpath base file_path) = Ok target.
Proof.
  unfold is_safe_path.
  destruct (resolve cwd (path_of base_dir)) as [base|e] eqn:Hb; [|done]. simpl.
  destruct (resolve cwd (joinpath base file_path)) as [target|e] eqn:Ht; [|done].
  intros _. by exists base, target.
Qed.

Lemma walk_app cur a b : walk cur (a ++ b) = walk (walk cur a) b.
Proof.
  revert cur. induction a as [|p a IH]; intros cur; [done|].
  simpl. by destruct (bool_decide (p = DOTDOT)).
Qed.

Lemma Forall_removelast {A} (P : A -> Prop) (l : list A) :
  Forall P l -> Forall P (removelast l).
Proof.
  induction 1 as [|x l Hx Hl IH]; [constructor|].
  simpl. destruct l; [constructor|]. by constructor.
Qed.

Lemma walk_Forall (P : str -> Prop) parts : forall cur,
  Forall P cur -> Forall (fun p => p <> DOTDOT -> P p) parts ->
  Forall P (walk cur parts).
Proof.
  induction parts as [|p parts IH]; intros cur Hc Hp; [done|].
  apply Forall_cons in Hp as [Hp Hps]. simpl. case_bool_decide as E.
  - apply IH; [by apply Forall_removelast | done].
  - apply IH; [|done]. apply Forall_app. split; [done|]. constructor; [auto|constructor].
Qed.

Lemma removelast_snoc {A} (l : list A) x : removelast (l ++ [x]) = l.
Proof. by rewrite removelast_last. Qed.

Lemma split_sep_nul s :
  has_nul s = false -> Forall (fun c => has_nul c = false) (split_sep s).
Proof.
  induction s as [|c s IH]; intros H; [by repeat constructor|].
  simpl in H. apply orb_false_iff in H as [Hc Hs]. specialize (IH Hs).
  cbn [split_sep]. destruct (c =? SEP).
  - by constructor.
  - destruct (split_sep s) as [|x xs]; [by repeat constructor; simpl; rewrite Hc|].
    apply Forall_cons in IH as [Hx Hxs]. constructor; [|done].
    simpl. by rewrite Hc.
Qed.

(** C2.  [is_safe_path] answers true exactly when both paths resolve and
    the resolved candidate is at or below the resolved base; when both
    resolve and the candidate is not at or below the base it answers
    false.  In particular [../secret.txt] is refused for every base but
    the root and a directory itself named [secret.txt], and a rooted
    candidate that lies outside the base is refused. *)
Theorem is_safe_path_contained (cwd : list str) (base_dir file_path : str) :
  (is_safe_path cwd base_dir file_path = Ok true <->
     exists base target,
       resolve cwd (path_of base_dir) = Ok base
       /\ resolve cwd (joinpath base file_path) = Ok target
       /\ contained base target)
  /\ (forall base target,
       resolve cwd (path_of base_dir) = Ok base ->
       resolve cwd (joinpath base file_path) = Ok target ->
       ~ contained base target ->
       is_safe_path cwd base_dir file_path = Ok false)
  /\ (forall q d,
       wf_cwd cwd ->
       resolve cwd (path_of base_dir) = Ok (PPath true (q ++ [d])) ->
       d <> lit "secret.txt" ->
       is_safe_path cwd base_dir (lit "../secret.txt") = Ok false)
  /\ (forall base,
       resolve cwd (path_of base_dir) = Ok base ->
       startswith file_path [SEP] = true ->
       has_nul file_path = false ->
       ~ contained base (PPath true (walk [] (p_parts (path_of file_path)))) ->
       is_safe_path cwd base_dir file_path = Ok false).
Proof.
  assert (Hfalse : forall fp base target,
       resolve cwd (path_of base_dir) = Ok base ->
       resolve cwd (joinpath base fp) = Ok target ->
       ~ contained base target ->
       is_safe_path cwd base_dir fp = Ok false).
  { intros fp base target Hb Ht Hn.
    rewrite (is_safe_path_resolved _ _ _ _ _ Hb Ht). f_equal.
    apply not_true_is_false. intros Hp. apply Hn.
    by apply is_prefix_spec. }
  split; [|split; [apply Hfalse|split]].
  - split.
    + intros H. destruct (is_safe_path_inv _ _ _ _ H) as (base & target & Hb & Ht).
      exists base, target. repeat split; [done..|].
      rewrite (is_safe_path_resolved _ _ _ _ _ Hb Ht) in H.
      injection H as H. by apply is_prefix_spec.
    + intros (base & target & Hb & Ht & Hc).
      rewrite (is_safe_path_resolved _ _ _ _ _ Hb Ht). f_equal.
      by apply is_prefix_spec.
  - intros q d Hcwd Hb Hd.
    assert (Hparts : Forall (fun c => c <> DOTDOT /\ has_nul c = false) (q ++ [d])).
    { revert Hb. generalize (path_of base_dir). intros pb Hb.
      unfold resolve in Hb.
      destruct (existsb has_nul (p_parts pb)) eqn:En; [done|].
      injection Hb as <-. apply walk_Forall.
      - destruct (p_abs pb); [constructor | exact Hcwd].
      - apply Forall_forall. intros p Hin Hp. split; [done|].
        apply not_true_is_false. intros Hnul.
        assert (existsb has_nul (p_parts pb) = true); [|congruence].
        apply existsb_exists. exists p. split; [by apply list_elem_of_In | done]. }
    eapply Hfalse; [exact Hb | |].
    + unfold resolve, joinpath.
      change (path_of (lit "../secret.txt")) with (PPath false [DOTDOT; lit "secret.txt"]).
      cbn [p_abs p_parts].
      assert (E : existsb has_nul ((q ++ [d]) ++ [DOTDOT; lit "secret.txt"]) = false).
      { rewrite existsb_app. apply orb_false_iff. split; [|done].
        apply not_true_is_false. intros Hex. apply existsb_exists in Hex as (p & Hin & Hp).
        apply list_elem_of_In in Hin.
        rewrite Forall_forall in Hparts. destruct (Hparts p Hin). congruence. }
      rewrite E. reflexivity.
    + cbn [p_parts]. intros [rel Hrel].
      rewrite walk_app in Hrel.
      assert (Ew : walk [] (q ++ [d]) = q ++ [d]).
      { clear -Hparts. revert Hparts. generalize (q ++ [d]). intros l.
        change l with ([] ++ l) at 3. generalize (@nil str).
        induction l as [|p l IH]; intros cur Hl; [by rewrite app_nil_r|].
        apply Forall_cons in Hl as [[Hp _] Hl]. simpl.
        rewrite bool_decide_false by done. rewrite IH by done.
        by rewrite <- (assoc_L (++)). }
      rewrite Ew in Hrel. simpl in Hrel.
      rewrite removelast_snoc in Hrel.
      rewrite <- (assoc_L (++)) in Hrel. apply app_inv_head in Hrel.
      simpl in Hrel. injection Hrel as Hrel _. by apply Hd.
  - intros base Hb Habs Hnul Hn.
    eapply Hfalse; [exact Hb | | exact Hn].
    unfold resolve, joinpath.
    assert (Ea : p_abs (path_of file_path) = true) by done.
    rewrite Ea.
    assert (En : existsb has_nul (p_parts (path_of file_path)) = false).
    { apply not_true_is_false. intros Hex.
      apply existsb_exists in Hex as (p & Hin & Hp).
      apply list_elem_of_In, list_elem_of_filter in Hin as [_ Hin].
      pose proof (split_sep_nul _ Hnul) as Hall.
      rewrite Forall_forall in Hall. specialize (Hall p Hin). congruence. }
    by rewrite En, Ea.
Qed.



(** ** Computations in the world *)

Lemma bind_ok {A B} (m : M A) (f : A -> M B) w a w1 :
  m w = (Ok a, w1) -> bind m f w = f a w1.
Proof. unfold bind. by intros ->. Qed.

Lemma bind_raise {A B} (m : M A) (f : A -> M B) w e w1 :
  m w = (Raise e, w1) -> bind m f w = (Raise e, w1).
Proof. unfold bind. by intros ->. Qed.

Lemma try_ok {A} (body : M A) h w a w1 :
  body w = (Ok a, w1) -> try_except body h w = (Ok a, w1).
Proof. unfold try_except. by intros ->. Qed.

Lemma try_raise {A} (body : M A) h w e w1 (hd : M A) :
  body w = (Raise e, w1) -> h e = Some hd -> try_except body h w = hd w1.
Proof. unfold try_except. by intros -> ->. Qed.

Lemma quiet_refl w : quiet w w.
Proof. exists []. destruct w. unfold set_stdout. simpl. by rewrite app_nil_r. Qed.

Lemma quiet_trans w1 w2 w3 : quiet w1 w2 -> quiet w2 w3 -> quiet w1 w3.
Proof.
  intros [o1 ->] [o2 ->]. exists (o1 ++ o2). unfold set_stdout. simpl.
  by rewrite <- (assoc_L (++)).
Qed.

Lemma quiet_print s w : quiet w (set_stdout w (w_stdout w ++ [s])).
Proof. by exists [s]. Qed.

Lemma quiet_fs w w' : quiet w w' -> w_fs w' = w_fs w.
Proof. by intros [o ->]. Qed.

Lemma quiet_stdin w w' : quiet w w' -> w_stdin w' = w_stdin w.
Proof. by intros [o ->]. Qed.

Lemma quiet_cwd w w' : quiet w w' -> w_cwd w' = w_cwd w.
Proof. by intros [o ->]. Qed.

Section MainSteps.
Variable unicode_lower : str -> str.

Local Arguments lit : simpl never.
Local Opaque parse_concatenated_file list_files_status write_files.

Lemma main_no_sections w content :
  started w content ->
  parse_concatenated_file content = [] ->
  exists w', main unicode_lower w = (Raise (SystemExit 0), w') /\ quiet w w'.
Proof.
  intros (Hargv & Hdir & Hread) Hparse. unfold main.
  erewrite bind_ok by reflexivity.
  rewrite bool_decide_false by lia.
  erewrite bind_ok by reflexivity. cbv zeta.
  erewrite bind_ok by exact Hdir. simpl negb.
  erewrite bind_ok by reflexivity.
  erewrite bind_ok by (eapply try_ok; exact Hread).
  rewrite Hparse. rewrite bool_decide_true by done.
  eexists. split; [reflexivity|]. apply quiet_print.
Qed.

End MainSteps.

(** ** The status listing *)

Lemma resolve_raise cwd p e : resolve cwd p = Raise e -> e = embedded_null.
Proof.
  unfold resolve. destruct (existsb has_nul (p_parts p)); [|done].
  by intros [= <-].
Qed.

Lemma is_safe_path_raise cwd base_dir file_path e :
  is_safe_path cwd base_dir file_path = Raise e -> e = embedded_null.
Proof.
  unfold is_safe_path.
  destruct (resolve cwd (path_of base_dir)) as [base|e0] eqn:Hb; simpl.
  - destruct (resolve cwd (joinpath base file_path)) as [target|e1] eqn:Ht; simpl.
    + unfold relative_to. by destruct (_ && _).
    + intros [= <-]. by eapply resolve_raise.
  - intros [= <-]. by eapply resolve_raise.
Qed.

Lemma os_path_exists_quiet s w : exists b, os_path_exists s w = (Ok b, w).
Proof.
  unfold os_path_exists. destruct (os_resolve (w_cwd w) s); by eexists.
Qed.

Lemma list_files_loop_spec files output_dir : forall acc w r w',
  list_files_loop files output_dir acc w = (r, w') ->
  quiet w w'
  /\ match r with
     | Ok b =>
         Forall (fun s => exists v, is_safe_path (w_cwd w) output_dir s.1 = Ok v) files
         /\ (b = true <->
             acc = true
             \/ Exists (fun s => is_safe_path (w_cwd w) output_dir s.1 = Ok false) files)
     | Raise e =>
         Exists (fun s => is_safe_path (w_cwd w) output_dir s.1 = Raise e) files
     end.
Proof.
  induction files as [|[file_path content] files IH]; intros acc w r w' H.
  - injection H as <- <-. split; [apply quiet_refl|]. split; [constructor|].
    split; [by left | intros [?|Hex]; [done | by apply Exists_nil in Hex]].
  - cbn [list_files_loop] in H. unfold bind at 1 in H. cbn [get_cwd] in H.
    unfold bind at 1 in H. unfold lift at 1 in H.
    destruct (is_safe_path (w_cwd w) output_dir file_path) as [safe|e] eqn:Hs.
    + assert (Hstep : exists w1,
        quiet w w1 /\
        list_files_loop files output_dir (acc || negb safe) w1 = (r, w')).
      { destruct safe; cbn [negb] in H.
        - unfold bind at 1 in H. unfold bind at 1 in H.
          destruct (os_path_exists_quiet (os_path_join output_dir file_path) w)
            as [found Hf].
          rewrite Hf in H. rewrite orb_false_r.
          destruct found; cbn in H; eexists; (split; [apply quiet_print | exact H]).
        - cbn in H. rewrite orb_true_r.
          eexists. split; [apply quiet_print | exact H]. }
      destruct Hstep as (w1 & Hq & Hloop).
      apply IH in Hloop as [Hq' Hr]. rewrite (quiet_cwd _ _ Hq) in Hr.
      split; [by eapply quiet_trans|].
      destruct r as [b|e].
      * destruct Hr as [Hall Hb]. split; [constructor; [by exists safe | done]|].
        rewrite Hb, Exists_cons. simpl. rewrite orb_true_iff, negb_true_iff.
        split.
        -- intros [[Ha | Hf] | Hex]; [by left | right; left; congruence | by right; right].
        -- intros [Ha | [Hs' | Hex]]; [by left; left | left; right; congruence | by right].
      * by apply Exists_cons_tl.
    + injection H as <- <-. split; [apply quiet_refl|]. by apply Exists_cons_hd.
Qed.

Lemma list_files_status_spec files output_dir w r w' :
  list_files_status files output_dir w = (r, w') ->
  quiet w w'
  /\ match r with
     | Ok b =>
         Forall (fun s => exists v, is_safe_path (w_cwd w) output_dir s.1 = Ok v) files
         /\ (b = true <->
             Exists (fun s => is_safe_path (w_cwd w) output_dir s.1 = Ok false) files)
     | Raise e =>
         Exists (fun s => is_safe_path (w_cwd w) output_dir s.1 = Raise e) files
     end.
Proof.
  unfold list_files_status. intros H.
  erewrite bind_ok in H by reflexivity.
  unfold bind at 1 in H.
  destruct (list_files_loop files output_dir false _) as [[b|e] w1] eqn:Hloop.
  - apply list_files_loop_spec in Hloop as [Hq [Hall Hb]].
    cbn in H. injection H as <- <-. split.
    + eapply quiet_trans; [apply quiet_print|].
      eapply quiet_trans; [exact Hq | apply quiet_print].
    + split; [exact Hall|]. rewrite Hb. split; [by intros [?|?] | by right].
  - apply list_files_loop_spec in Hloop as [Hq Hex].
    injection H as <- <-. split; [|exact Hex].
    eapply quiet_trans; [apply quiet_print | exact Hq].
Qed.

(** ** The writer *)

Lemma mkdirs_keeps parts : forall fs cur s fs' t0 n,
  mkdirs fs cur parts s = Ok fs' ->
  fs !! t0 = Some n -> fs' !! t0 = Some n.
Proof.
  induction parts as [|p parts IH]; intros fs cur s fs' t0 n H H0; simpl in H.
  - by injection H as <-.
  - destruct (fs !! (cur ++ [p])) as [[|content]|] eqn:E.
    + by eapply IH.
    + by destruct parts.
    + eapply IH; [exact H|]. rewrite lookup_insert_ne; [done|]. congruence.
Qed.

Lemma mkdirs_raise parts : forall fs cur s e,
  mkdirs fs cur parts s = Raise e -> is_Exception e = true.
Proof.
  induction parts as [|p parts IH]; intros fs cur s e H; simpl in H; [done|].
  destruct (fs !! (cur ++ [p])) as [[|content]|] eqn:E.
  - by eapply IH.
  - destruct parts; by injection H as <-.
  - by eapply IH.
Qed.

Lemma write_one_ok output_dir p c w fp w1 :
  write_one output_dir p c w = (Ok fp, w1) ->
  fp = os_path_join output_dir p
  /\ w_cwd w1 = w_cwd w
  /\ exists t, target_of w output_dir p = Some t
      /\ w_fs w1 !! t = Some (File c)
      /\ forall t0 n, t0 <> t -> w_fs w !! t0 = Some n -> w_fs w1 !! t0 = Some n.
Proof.
  unfold write_one, target_of, bind, get_cwd, lift, when, raise, ret, os_makedirs, open_write.
  intros H. repeat case_match; simplify_eq; cbn in *; simplify_eq.
  all: split; [done|]; split; [done|]; eexists; split; [done|].
  all: split; [by rewrite lookup_insert_eq|].
  all: intros t0 n0 Hne Hlook; rewrite lookup_insert_ne by done.
  all: try done.
  all: by eapply mkdirs_keeps.
Qed.

Lemma write_one_raise output_dir p c w e w1 :
  write_one output_dir p c w = (Raise e, w1) ->
  is_Exception e = true
  /\ w_cwd w1 = w_cwd w
  /\ w_stdout w1 = w_stdout w
  /\ forall t0 n, w_fs w !! t0 = Some n -> w_fs w1 !! t0 = Some n.
Proof.
  unfold write_one, bind, get_cwd, lift, when, raise, ret, os_makedirs, open_write.
  intros H. repeat case_match; simplify_eq; cbn in *; simplify_eq.
  all: repeat split; try done.
  all: try (match goal with
            | H : is_safe_path _ _ _ = Raise _ |- _ =>
                by rewrite (is_safe_path_raise _ _ _ _ H)
            end).
  all: try (intros t0 n0 Hlook; by eapply mkdirs_keeps).
  all: by eapply mkdirs_raise.
Qed.

Lemma written_run_paths output_dir files w fps w' :
  written_run output_dir files w fps w' ->
  fps = map (fun s => os_path_join output_dir s.1) files.
Proof.
  induction 1 as [|p c files w fp w1 fps w2 H1 _ IH]; [done|].
  simpl. f_equal; [|done]. by apply write_one_ok in H1 as [-> _].
Qed.

Lemma written_run_cwd output_dir files w fps w' :
  written_run output_dir files w fps w' -> w_cwd w' = w_cwd w.
Proof.
  induction 1 as [|p c files w fp w1 fps w2 H1 _ IH]; [done|].
  rewrite IH. simpl. by apply write_one_ok in H1 as (_ & -> & _).
Qed.

Lemma write_loop_spec output_dir files : forall acc w,
  match write_loop files output_dir acc w with
  | ((written, Ok _), w') =>
      exists fps, written = acc ++ fps /\ written_run output_dir files w fps w'
  | ((written, Raise e), w') =>
      exists k p c fps w1,
        files !! k = Some (p, c)
        /\ written = acc ++ fps
        /\ written_run output_dir (take k files) w fps w1
        /\ write_one output_dir p c w1 = (Raise e, w')
  end.
Proof.
  induction files as [|[p c] files IH]; intros acc w.
  - simpl. exists []. split; [by rewrite app_nil_r | constructor].
  - cbn [write_loop].
    destruct (write_one output_dir p c w) as [[fp|e] w1] eqn:H1.
    + cbn [print]. specialize (IH (acc ++ [fp])
        (set_stdout w1 (w_stdout w1 ++ [lit "Written: " ++ fp]))).
      destruct (write_loop files output_dir (acc ++ [fp]) _) as [[written [u|e]] w'].
      * destruct IH as (fps & -> & Hrun). exists (fp :: fps).
        split; [by rewrite <- (assoc_L (++))|]. by econstructor.
      * destruct IH as (k & p' & c' & fps & w2 & Hk & -> & Hrun & Hfail).
        exists (S k), p', c', (fp :: fps), w2.
        repeat split; [done | by rewrite <- (assoc_L (++)) | | done].
        simpl. by econstructor.
    + exists 0%nat, p, c, [], w. repeat split; [by rewrite app_nil_r | constructor | done].
Qed.

Lemma print_all_spec lines : forall w,
  print_all lines w = (Ok tt, set_stdout w (w_stdout w ++ lines)).
Proof.
  induction lines as [|l lines IH]; intros w; simpl.
  - unfold ret. f_equal. destruct w. unfold set_stdout. simpl. by rewrite app_nil_r.
  - unfold bind, print. rewrite IH. f_equal. unfold set_stdout. simpl.
    by rewrite <- (assoc_L (++)).
Qed.

Lemma write_one_written output_dir p c w fp w1 :
  write_one output_dir p c w = (Ok fp, w1) ->
  section_written output_dir (p, c) w fp w1.
Proof.
  unfold write_one, section_written, bind, get_cwd, lift, when, raise, ret.
  intros H. cbn [fst snd].
  destruct (is_safe_path (w_cwd w) output_dir p) as [[|]|e0] eqn:Hs;
    cbn [negb] in H; [|done|done].
  split; [done|].
  destruct (bool_decide (os_path_dirname (os_path_join output_dir p) = [])) eqn:Hd;
    cbn [negb] in H.
  - destruct (open_write (os_path_join output_dir p) c w) as [[u|e0] w'] eqn:Ho;
      [|done].
    injection H as <- <-. split; [done|]. exists w. rewrite Hd. by destruct u.
  - destruct (os_makedirs _ w) as [[u|e0] wd] eqn:Hm; [|done].
    destruct (open_write (os_path_join output_dir p) c wd) as [[u'|e0] w'] eqn:Ho;
      [|done].
    injection H as <- <-. split; [done|]. exists wd. rewrite Hd.
    destruct u, u'. done.
Qed.

Lemma write_one_fails output_dir p c w e w2 :
  write_one output_dir p c w = (Raise e, w2) ->
  section_fails output_dir (p, c) w e w2.
Proof.
  unfold write_one, section_fails, bind, get_cwd, lift, when, raise, ret.
  intros H. cbn [fst snd].
  destruct (is_safe_path (w_cwd w) output_dir p) as [[|]|e0] eqn:Hs;
    cbn [negb] in H.
  - destruct (bool_decide (os_path_dirname (os_path_join output_dir p) = [])) eqn:Hd;
      cbn [negb] in H.
    + destruct (open_write (os_path_join output_dir p) c w) as [[u|e0] w'] eqn:Ho;
        [done|].
      injection H as <- <-. right; right; right. split; [done|].
      by exists w.
    + destruct (os_makedirs _ w) as [[u|e0] wd] eqn:Hm.
      * destruct (open_write (os_path_join output_dir p) c wd) as [[u'|e1] w'] eqn:Ho;
          [done|].
        injection H as <- <-. right; right; right. split; [done|].
        exists wd. by destruct u.
      * injection H as <- <-. right; right; left. split; [done|]. split; [|done].
        by apply bool_decide_eq_false in Hd.
  - injection H as <- <-. by left.
  - injection H as <- <-. right; left. done.
Qed.

Lemma written_run_writes output_dir files w fps w' :
  written_run output_dir files w fps w' -> writes output_dir files w fps w'.
Proof.
  induction 1 as [|p c files w fp w1 fps w2 H1 _ IH]; [constructor|].
  econstructor; [by apply write_one_written | done].
Qed.

(** What is written can be read back. *)
Lemma section_written_read output_dir s w fp w1 :
  section_written output_dir s w fp w1 -> read_text fp w1 = (Ok s.2, w1).
Proof.
  intros (_ & _ & wd & _ & Ho). revert Ho. unfold open_write, read_text.
  destruct (os_resolve (w_cwd wd) fp) as [t|] eqn:Hr; [|done].
  destruct (lookup_node (w_fs wd) t) as [[|c0]|] eqn:Hl; [done| |];
    (destruct (lookup_node (w_fs wd) (removelast t)) as [[|c1]|]; [|done|done];
     case_bool_decide; [done|]; intros [= <-]; cbn; rewrite Hr;
     destruct t; [done|]; cbn; by rewrite lookup_insert_eq).
Qed.

(** C5.  [write_files] takes the sections in order.  Either every section
    is written, or there is a first section that fails, because its path
    is unsafe or because the file system refuses: the sections before it
    are written, that section raises, no later section is attempted and
    nothing is undone (the world is the one the failing step left, plus
    the report), the report lists exactly the paths written before the
    failure, and the caller gets exit status 1.  A section that is written
    can be read back from the file system. *)
Theorem write_files_stops_at_first_error
    (files : list section) (output_dir : str) (w : world) :
  ((exists fps w1,
      writes output_dir files w fps w1
      /\ write_files files output_dir w
         = (Ok tt, set_stdout w1 (w_stdout w1 ++ [SUCCESS])))
   \/ (exists k s e fps w1 w2,
      files !! k = Some s
      /\ writes output_dir (take k files) w fps w1
      /\ fps = map (fun s => os_path_join output_dir s.1) (take k files)
      /\ section_fails output_dir s w1 e w2
      /\ write_files files output_dir w
         = (Raise (SystemExit 1),
            set_stdout w2 (w_stdout w2 ++ failure_report e fps))
      /\ exit_status (write_files files output_dir w).1 = 1%Z))
  /\ (forall s w0 fp w1,
       section_written output_dir s w0 fp w1 ->
       read_text fp w1 = (Ok s.2, w1)).
Proof.
  split; [|intros s w0 fp w1; apply section_written_read].
  unfold write_files. pose proof (write_loop_spec output_dir files [] w) as H.
  destruct (write_loop files output_dir [] w) as [[written [u|e]] w'].
  - left. destruct H as (fps & _ & Hrun). exists fps, w'.
    split; [by apply written_run_writes | done].
  - right. destruct H as (k & p & c & fps & w1 & Hk & -> & Hrun & Hfail).
    destruct (write_one_raise _ _ _ _ _ _ Hfail) as (He & _).
    rewrite He. exists k, (p, c), e, fps, w1, w'.
    assert (E : (run print ([NL] ++ COLOR_RED ++ lit "Error during write: "
                            ++ exn_message e ++ COLOR_RESET);
                 run print (COLOR_YELLOW ++ lit "Successfully written files:"
                            ++ COLOR_RESET);
                 run print_all (map (fun path => lit " - " ++ path) ([] ++ fps));
                 @sys_exit unit 1) w'
                = (Raise (SystemExit 1),
                   set_stdout w' (w_stdout w' ++ failure_report e fps))).
    { unfold bind at 1. cbn [print]. unfold bind at 1. cbn [print].
      unfold bind at 1. rewrite print_all_spec. unfold sys_exit, raise.
      f_equal. unfold set_stdout, failure_report. simpl. f_equal.
      by rewrite <- !(assoc_L (++)). }
    rewrite E. repeat split; try done.
    + by apply written_run_writes.
    + by eapply written_run_paths.
    + by apply write_one_fails.
Qed.

(** With an unsafe path in the second of three sections: the first is
    written, the run of [write_files] ends with status 1, the third is
    never written. *)
Lemma write_files_stops_at_first_error_witness :
  exists w',
    write_files failing_example (lit "out") (example_world [] [])
    = (Raise (SystemExit 1), w')
    /\ w_fs w' !! [lit "home"; lit "out"; lit "ok.txt"] = Some (File (lit "fine"))
    /\ w_fs w' !! [lit "home"; lit "out"; lit "later.txt"] = None
    /\ w_fs w' !! [lit "home"; lit "secret.txt"] = None.
Proof.
  destruct (proj1 (write_files_stops_at_first_error
                     failing_example (lit "out") (example_world [] [])))
    as [(fps & w1 & _ & E)|(k & s & e & fps & w1 & w2 & _ & _ & _ & _ & E & _)].
  - vm_compute in E. discriminate.
  - exists (set_stdout w2 (w_stdout w2 ++ failure_report e fps)).
    split; [exact E|].
    assert (Efs : w_fs w2
                  = w_fs (write_files failing_example (lit "out")
                            (example_world [] [])).2) by (by rewrite E).
    cbn [w_fs set_stdout]. rewrite Efs. vm_compute. done.
Defined.

Lemma written_run_keeps output_dir files w fps w' t c :
  written_run output_dir files w fps w' ->
  w_fs w !! t = Some (File c) ->
  Forall (fun s => target_of w output_dir s.1 <> Some t) files ->
  w_fs w' !! t = Some (File c).
Proof.
  induction 1 as [|p c0 files w fp w1 fps w2 H1 Hrun IH]; intros Hw Hall; [done|].
  apply Forall_cons in Hall as [Hp Hall].
  apply write_one_ok in H1 as (_ & Hcwd & t1 & Ht1 & _ & Hkeep).
  apply IH.
  - simpl. apply Hkeep; [|done]. intros ->. simpl in Hp. congruence.
  - eapply Forall_impl; [exact Hall|]. intros s Hs. unfold target_of in *.
    simpl. by rewrite Hcwd.
Qed.

Lemma written_run_last output_dir files w fps w' :
  written_run output_dir files w fps w' ->
  forall i p c t,
    files !! i = Some (p, c) ->
    target_of w output_dir p = Some t ->
    (forall j p' c', (i < j)%nat -> files !! j = Some (p', c') ->
       target_of w output_dir p' <> Some t) ->
    w_fs w' !! t = Some (File c).
Proof.
  induction 1 as [|p0 c0 files w fp w1 fps w2 H1 Hrun IH]; intros i p c t Hi Ht Hlater;
    [done|].
  pose proof (write_one_ok _ _ _ _ _ _ H1) as (_ & Hcwd & t1 & Ht1 & Hfile & Hkeep).
  destruct i as [|i].
  - injection Hi as -> ->. rewrite Ht in Ht1. injection Ht1 as <-.
    eapply written_run_keeps; [exact Hrun | exact Hfile |].
    apply Forall_forall. intros [p' c'] Hin.
    apply list_elem_of_lookup in Hin as [j Hj]. simpl.
    unfold target_of. simpl. rewrite Hcwd.
    apply (Hlater (S j) p' c'); [lia | done].
  - eapply (IH i p c t); [done | |].
    + unfold target_of in *. simpl. by rewrite Hcwd.
    + intros j p' c' Hij Hj. unfold target_of. simpl. rewrite Hcwd.
      apply (Hlater (S j) p' c'); [lia | done].
Qed.

(** C8.  When [write_files] has written all the sections, the file a
    section was written to holds the content of that section, unless a
    later section was written to the same file: of the sections that name
    one file, the last one wins. *)
Theorem last_write_wins (files : list section) (output_dir : str) (w w' : world)
    (i : nat) (p c : str) (t : list str) :
  write_files files output_dir w = (Ok tt, w') ->
  files !! i = Some (p, c) ->
  target_of w output_dir p = Some t ->
  (forall j p' c', (i < j)%nat -> files !! j = Some (p', c') ->
     target_of w output_dir p' <> Some t) ->
  w_fs w' !! t = Some (File c).
Proof.
  intros Hw Hi Ht Hlater. unfold write_files in Hw.
  pose proof (write_loop_spec output_dir files [] w) as H.
  destruct (write_loop files output_dir [] w) as [[written [u|e]] w1].
  - destruct H as (fps & _ & Hrun). injection Hw as <-. simpl.
    by eapply written_run_last.
  - destruct H as (k & p0 & c0 & fps & w2 & _ & _ & _ & Hfail).
    apply write_one_raise in Hfail as [He _]. rewrite He in Hw.
    unfold bind, print, print_all, sys_exit, raise in Hw.
    by rewrite print_all_spec in Hw.
Qed.

(** ** The run of [main] *)

Lemma input_line prompt w a rest :
  w_stdin w = Line a :: rest ->
  input prompt w = (Ok a, set_stdin (set_stdout w (w_stdout w ++ [prompt])) rest).
Proof. unfold input. simpl. by intros ->. Qed.

Lemma input_interrupt prompt w rest :
  w_stdin w = Interrupt :: rest ->
  input prompt w
  = (Raise KeyboardInterrupt, set_stdin (set_stdout w (w_stdout w ++ [prompt])) rest).
Proof. unfold input. simpl. by intros ->. Qed.

Lemma input_eof prompt w :
  w_stdin w = [] ->
  input prompt w = (Raise EOFError, set_stdout w (w_stdout w ++ [prompt])).
Proof. unfold input. simpl. by intros ->. Qed.

Ltac main_start Hargv Hdir Hread :=
  unfold main;
  erewrite bind_ok by reflexivity;
  rewrite bool_decide_false by lia;
  erewrite bind_ok by reflexivity; cbv zeta;
  erewrite bind_ok by exact Hdir; simpl negb;
  erewrite bind_ok by reflexivity;
  erewrite bind_ok by (eapply try_ok; exact Hread).

Section MainRun.
Variable unicode_lower : str -> str.

Local Arguments lit : simpl never.
Local Opaque parse_concatenated_file list_files_status write_files.

Lemma main_listing_raises w content e w1 :
  started w content ->
  parse_concatenated_file content <> [] ->
  list_files_status (parse_concatenated_file content) (output_of w) w = (Raise e, w1) ->
  main unicode_lower w = (Raise e, w1).
Proof.
  intros (Hargv & Hdir & Hread) Hne Hl. main_start Hargv Hdir Hread.
  rewrite bool_decide_false by done.
  erewrite bind_ok by reflexivity.
  by erewrite bind_raise by exact Hl.
Qed.

Lemma main_unsafe w content w1 :
  started w content ->
  parse_concatenated_file content <> [] ->
  list_files_status (parse_concatenated_file content) (output_of w) w = (Ok true, w1) ->
  exists w', main unicode_lower w = (Raise (SystemExit 1), w') /\ quiet w1 w'.
Proof.
  intros (Hargv & Hdir & Hread) Hne Hl. main_start Hargv Hdir Hread.
  rewrite bool_decide_false by done.
  erewrite bind_ok by reflexivity.
  erewrite bind_ok by exact Hl.
  eexists. split; [reflexivity | apply quiet_print].
Qed.

Lemma main_declined w files w1 :
  prompted w files w1 ->
  declined unicode_lower (w_stdin w) ->
  exists w', main unicode_lower w = (Raise (SystemExit 0), w') /\ w_fs w' = w_fs w.
Proof.
  intros (content & (Hargv & Hdir & Hread) & -> & Hne & Hl) Hd.
  pose proof (list_files_status_spec _ _ _ _ _ Hl) as [Hq _].
  rewrite <- (quiet_stdin _ _ Hq) in Hd. rewrite <- (quiet_fs _ _ Hq).
  main_start Hargv Hdir Hread.
  rewrite bool_decide_false by done.
  erewrite bind_ok by reflexivity.
  erewrite bind_ok by exact Hl.
  erewrite bind_ok by reflexivity.
  inversion Hd as [a rest Ha Hin|a rest Ha Hin|rest Hin|Hin]; symmetry in Hin.
  - erewrite bind_ok
      by (eapply try_ok; erewrite bind_ok by (by apply input_line); reflexivity).
    rewrite Ha. eexists. split; [reflexivity | done].
  - erewrite bind_ok
      by (eapply try_ok; erewrite bind_ok by (by apply input_line); reflexivity).
    rewrite Ha. eexists. split; [reflexivity | done].
  - erewrite bind_raise.
    2:{ erewrite try_raise;
          [| by erewrite bind_raise by (by apply input_interrupt) | reflexivity].
        reflexivity. }
    eexists. split; [reflexivity | done].
  - erewrite bind_raise.
    2:{ erewrite try_raise;
          [| by erewrite bind_raise by (by apply input_eof) | reflexivity].
        reflexivity. }
    eexists. split; [reflexivity | done].
Qed.

Lemma main_accepted w files w1 a rest :
  prompted w files w1 ->
  w_stdin w = Line a :: rest ->
  lower unicode_lower (strip a) <> lit "n" ->
  lower unicode_lower (strip a) <> lit "no" ->
  main unicode_lower w = write_files files (output_of w) (asked w1 rest).
Proof.
  intros (content & (Hargv & Hdir & Hread) & -> & Hne & Hl) Hin Hn Hno.
  pose proof (list_files_status_spec _ _ _ _ _ Hl) as [Hq _].
  rewrite <- (quiet_stdin _ _ Hq) in Hin.
  main_start Hargv Hdir Hread.
  rewrite bool_decide_false by done.
  erewrite bind_ok by reflexivity.
  erewrite bind_ok by exact Hl.
  erewrite bind_ok by reflexivity.
  erewrite bind_ok
    by (eapply try_ok; erewrite bind_ok by (by apply input_line); reflexivity).
  rewrite !bool_decide_false by done.
  by erewrite bind_ok by reflexivity.
Qed.


End MainRun.

(** ** The claims about the run *)

Lemma no_marker_by_scan content :
  marker_freeb true content [] = true -> ~ has_marker content.
Proof.
  intros H (a & b & -> & Hbol & Hm). apply marker_freeb_true in H.
  assert (Hb : b <> []).
  { destruct Hm as (w1 & c & w2 & tl & -> & _). done. }
  specialize (H a b eq_refl Hb). rewrite Hbol, app_nil_r in H.
  apply marker_complete in Hm as [st Hst]. congruence.
Qed.

(** X4.  An input in which the pattern matches nowhere is parsed into the
    empty sequence, and
    a run that reads such an input exits with status 0 and leaves the file
    system as it was. *)
Theorem no_marker_nothing_to_do (content : str) :
  ~ has_marker content ->
  parse_concatenated_file content = []
  /\ forall unicode_lower w,
       started w content ->
       exists w', main unicode_lower w = (Raise (SystemExit 0), w')
         /\ exit_status (main unicode_lower w).1 = 0%Z
         /\ w_fs w' = w_fs w.
Proof.
  intros Hno. pose proof (parse_no_marker content Hno) as Hp.
  split; [exact Hp|]. intros ul w Hs.
  destruct (main_no_sections ul w content Hs Hp) as (w' & E & Hq).
  exists w'. rewrite E. repeat split. by apply quiet_fs.
Qed.

Lemma no_marker_nothing_to_do_witness :
  parse_concatenated_file plain_example = []
  /\ exists w', main (fun s => s) (example_world plain_example []) = (Raise (SystemExit 0), w')
       /\ w_fs w' = w_fs (example_world plain_example []).
Proof.
  assert (Hno : ~ has_marker plain_example).
  { apply no_marker_by_scan. vm_compute. reflexivity. }
  destruct (no_marker_nothing_to_do plain_example Hno) as [Hp Hrun].
  split; [exact Hp|].
  destruct (Hrun (fun s => s) (example_world plain_example [])) as (w' & E & _ & Hfs).
  - repeat split; vm_compute; try reflexivity. lia.
  - by exists w'.
Defined.



Lemma parse_markers_in_order_witness :
  parse_concatenated_file spec_example
  = [(lit "a.txt", lit "hello" ++ [NL]); (lit "b/c.txt", lit "world")]
  /\ length (parse_concatenated_file spec_example) = 2%nat.
Proof.
  apply (parse_markers_in_order [] spec_example_chunks).
  - apply marker_free_nil.
  - repeat split.
    + eexists. split; [vm_compute; reflexivity|]. split; reflexivity.
    + apply marker_freeb_true. vm_compute. reflexivity.
    + eexists. split; [vm_compute; reflexivity|]. split; reflexivity.
    + apply marker_freeb_true. vm_compute. reflexivity.
Defined.

(** C3.  A run that reads an input of which one section fails the safety
    check exits with status 1, with the file system as it was and without
    having asked the operator, whatever the other sections are.  The
    listing returns true exactly when a section is unsafe, it returns
    whenever no check raises, and after a true result [main] only prints a
    message and exits. *)
Theorem unsafe_path_aborts_run (unicode_lower : str -> str) (w : world) (content : str) :
  started w content ->
  let files := parse_concatenated_file content in
  let check := fun s : section => is_safe_path (w_cwd w) (output_of w) s.1 in
  (Exists (fun s => check s <> Ok true) files ->
     exists r w', main unicode_lower w = (r, w')
       /\ exit_status r = 1%Z
       /\ w_fs w' = w_fs w
       /\ w_stdin w' = w_stdin w)
  /\ (forall b w1,
       list_files_status files (output_of w) w = (Ok b, w1) ->
       (b = true <-> Exists (fun s => check s = Ok false) files)
       /\ w_fs w1 = w_fs w)
  /\ (Forall (fun s => exists v, check s = Ok v) files ->
       exists b w1, list_files_status files (output_of w) w = (Ok b, w1))
  /\ (forall w1,
       list_files_status files (output_of w) w = (Ok true, w1) ->
       exists w', main unicode_lower w = (Raise (SystemExit 1), w') /\ quiet w1 w').
Proof.
  intros Hs files check.
  assert (Hgate : forall w1,
       list_files_status files (output_of w) w = (Ok true, w1) ->
       exists w', main unicode_lower w = (Raise (SystemExit 1), w') /\ quiet w1 w').
  { intros w1 Hl. apply (main_unsafe unicode_lower w content w1 Hs); [|exact Hl].
    apply list_files_status_spec in Hl as [_ [_ Hb]].
    intros En. fold files in En. rewrite En in Hb.
    destruct Hb as [Hb _]. specialize (Hb eq_refl). by apply Exists_nil in Hb. }
  split; [|split; [|split; [|exact Hgate]]].
  - intros Hex.
    destruct (list_files_status files (output_of w) w) as [[b|e] w1] eqn:Hl.
    + pose proof (list_files_status_spec _ _ _ _ _ Hl) as [Hq [Hall Hb]].
      assert (b = true) as ->.
      { apply Hb. apply Exists_exists in Hex as (s & Hin & Hne).
        apply Exists_exists. exists s. split; [done|].
        rewrite Forall_forall in Hall. destruct (Hall s Hin) as [v Hv].
        fold (check s) in Hv. rewrite Hv in *. by destruct v. }
      destruct (Hgate w1 eq_refl) as (w' & E & Hq').
      exists (Raise (SystemExit 1)), w'. repeat split; [done | |].
      * by rewrite (quiet_fs _ _ Hq'), (quiet_fs _ _ Hq).
      * by rewrite (quiet_stdin _ _ Hq'), (quiet_stdin _ _ Hq).
    + pose proof (list_files_status_spec _ _ _ _ _ Hl) as [Hq Hraise].
      exists (Raise e), w1. repeat split.
      * apply (main_listing_raises unicode_lower w content e w1 Hs); [|exact Hl].
        intros En. fold files in En. rewrite En in Hex. by apply Exists_nil in Hex.
      * apply Exists_exists in Hraise as (s & _ & Hr).
        by rewrite (is_safe_path_raise _ _ _ _ Hr).
      * by apply quiet_fs.
      * by apply quiet_stdin.
  - intros b w1 Hl. apply list_files_status_spec in Hl as [Hq [_ Hb]].
    split; [exact Hb | by apply quiet_fs].
  - intros Hall.
    destruct (list_files_status files (output_of w) w) as [[b|e] w1] eqn:Hl;
      [by exists b, w1|].
    apply list_files_status_spec in Hl as [_ Hraise].
    apply Exists_exists in Hraise as (s & Hin & Hr).
    rewrite Forall_forall in Hall. destruct (Hall s Hin) as [v Hv].
    unfold check in Hv. congruence.
Qed.

Lemma unsafe_path_aborts_run_witness :
  exists r w', main (fun s => s) (example_world unsafe_example [Line (lit "y")]) = (r, w')
    /\ exit_status r = 1%Z
    /\ w_fs w' = w_fs (example_world unsafe_example [Line (lit "y")])
    /\ w_stdin w' = [Line (lit "y")].
Proof.
  apply (unsafe_path_aborts_run (fun s => s)
           (example_world unsafe_example [Line (lit "y")]) unsafe_example).
  - repeat split; vm_compute; try reflexivity. lia.
  - apply Exists_exists. exists (lit "../secret.txt", lit "stolen"). split.
    + vm_compute. apply list_elem_of_In. simpl. right. left. reflexivity.
    + vm_compute. discriminate.
Defined.

(** C7.  When the prompt is reached and the operator answers [n] or [no],
    interrupts, or ends the input, the run exits with status 0 and the
    file system is as it was. *)
Theorem decline_exits_without_write
    (unicode_lower : str -> str) (w : world) (files : list section) (w1 : world) :
  prompted w files w1 ->
  declined unicode_lower (w_stdin w) ->
  exists w', main unicode_lower w = (Raise (SystemExit 0), w')
    /\ exit_status (main unicode_lower w).1 = 0%Z
    /\ w_fs w' = w_fs w.
Proof.
  intros Hp Hd. destruct (main_declined unicode_lower w files w1 Hp Hd) as (w' & E & Hfs).
  exists w'. by rewrite E.
Qed.


(** ** Witnesses on the example worlds *)

Lemma example_prompted (stdin : list stdin_event) :
  prompted (example_world spec_example stdin)
           (parse_concatenated_file spec_example)
           (list_files_status (parse_concatenated_file spec_example) (lit "out")
              (example_world spec_example stdin)).2.
Proof.
  exists spec_example. split; [|split; [reflexivity|split]].
  - repeat split; vm_compute; try reflexivity. lia.
  - vm_compute. discriminate.
  - vm_compute. reflexivity.
Defined.

Lemma decline_exits_without_write_witness :
  exists w', main (fun s => s) (example_world spec_example [Line (lit "n")])
             = (Raise (SystemExit 0), w')
    /\ exit_status (main (fun s => s) (example_world spec_example [Line (lit "n")])).1 = 0%Z
    /\ w_fs w' = w_fs (example_world spec_example [Line (lit "n")]).
Proof.
  eapply decline_exits_without_write.
  - apply example_prompted.
  - apply declined_n. vm_compute. reflexivity.
Defined.


Lemma last_write_wins_witness :
  w_fs (write_files duplicate_example (lit "out") (example_world [] [])).2
    !! [lit "home"; lit "out"; lit "a.txt"]
  = Some (File (lit "second")).
Proof.
  apply (last_write_wins duplicate_example (lit "out") (example_world [] [])
           _ 2 (lit "a.txt") (lit "second")).
  - vm_compute. reflexivity.
  - reflexivity.
  - vm_compute. reflexivity.
  - intros j p' c' Hj Hl.
    destruct j as [|[|[|j]]]; [lia | lia | lia | discriminate].
Defined.

Lemma is_safe_path_contained_witness :
  is_safe_path [lit "home"] (lit "out") (lit "../secret.txt") = Ok false
  /\ is_safe_path [lit "home"] (lit "out") (lit "/etc/passwd") = Ok false
  /\ is_safe_path [lit "home"] (lit "out") (lit "sub/dir/file.txt") = Ok true.
Proof.
  split; [|split].
  - apply (proj1 (proj2 (proj2
             (is_safe_path_contained [lit "home"] (lit "out") (lit "../secret.txt"))))
             [lit "home"] (lit "out")).
    + repeat constructor; vm_compute; discriminate.
    + vm_compute. reflexivity.
    + vm_compute. discriminate.
  - apply (proj2 (proj2 (proj2
             (is_safe_path_contained [lit "home"] (lit "out") (lit "/etc/passwd"))))
             (PPath true [lit "home"; lit "out"])).
    + vm_compute. reflexivity.
    + vm_compute. reflexivity.
    + vm_compute. reflexivity.
    + intros [rel Hrel]. vm_compute in Hrel. discriminate.
  - apply (proj1 (is_safe_path_contained [lit "home"] (lit "out")
                    (lit "sub/dir/file.txt"))).
    exists (PPath true [lit "home"; lit "out"]),
           (PPath true [lit "home"; lit "out"; lit "sub"; lit "dir"; lit "file.txt"]).
    split; [vm_compute; reflexivity|]. split; [vm_compute; reflexivity|].
    exists [lit "sub"; lit "dir"; lit "file.txt"]. reflexivity.
Defined.


(** ** Divider lines, and the parser as the inverse of concatenation *)

Lemma rmatch_rlit l : forall pos bol rest g k,
  rmatch (rlit l) (MState pos bol (l ++ rest) g) k
  = k (MState (pos + length l) (bol_after bol l) rest g).
Proof.
  induction l as [|c l IH]; intros pos bol rest g k; simpl.
  - by rewrite Nat.add_0_r.
  - rewrite N.eqb_refl, IH, bol_after_cons. do 2 f_equal. lia.
Qed.

(** A lazy star passes over the characters at which what follows fails. *)
Lemma star_lazy_skip cls k p : forall pos bol g rest,
  Forall (fun c => cls c = true) p ->
  (forall a b, p = a ++ b -> b <> [] ->
     k (MState (pos + length a) (bol_after bol a) (b ++ rest) g) = None) ->
  star false cls k pos bol g (p ++ rest)
  = star false cls k (pos + length p) (bol_after bol p) g rest.
Proof.
  induction p as [|x p IH]; intros pos bol g rest Hp Hk.
  - simpl. by rewrite Nat.add_0_r.
  - apply Forall_cons in Hp as [Hx Hp]. cbn [app star]. rewrite Hx.
    pose proof (Hk [] (x :: p) eq_refl) as H0. simpl in H0.
    rewrite Nat.add_0_r, bol_after_nil in H0. rewrite H0 by done.
    rewrite IH; [by rewrite bol_after_cons; f_equal; simpl; lia | done |].
    intros a b -> Hb. specialize (Hk (x :: a) b eq_refl Hb).
    rewrite bol_after_cons in Hk. simpl in Hk.
    by rewrite <- Nat.add_succ_comm in Hk.
Qed.

(** A greedy star that can take one character and no more. *)
Lemma star_greedy_one cls k c rest pos bol g r :
  cls c = true ->
  match rest with [] => True | y :: _ => cls y = false end ->
  k (MState (S pos) (is_nl c) rest g) = Some r ->
  star true cls k pos bol g (c :: rest) = Some r.
Proof.
  intros Hc Hrest Hk. cbn [star]. rewrite Hc.
  destruct rest as [|y rest]; cbn [star]; [by rewrite Hk|].
  by rewrite Hrest, Hk.
Qed.

(** After a text that ends without white space, the closing of a marker
    cannot come before that text is over. *)
Lemma no_early_close w : forall b tl r,
  b <> [] ->
  Forall (fun c => is_dot c = true) b ->
  (forall x, last b = Some x -> is_space x = false) ->
  Forall (fun c => is_space c = true) w ->
  b ++ 32 :: MARKER_CLOSE ++ tl = w ++ MARKER_CLOSE ++ r ->
  at_eol r = true -> False.
Proof.
  induction w as [|y w IH]; intros b tl r Hb Hdot Hlast Hw E He.
  - simpl in E.
    destruct b as [|b1 [|b2 [|b3 [|b4 [|b5 b']]]]]; try done;
      try (simplify_eq; done).
    injection E as -> -> -> -> -> <-.
    destruct b' as [|z b']; [done|]. simpl in He.
    do 5 (apply Forall_cons in Hdot as [_ Hdot]).
    apply Forall_cons in Hdot as [Hz _]. unfold is_dot in Hz.
    by rewrite He in Hz.
  - destruct b as [|x b]; [done|]. injection E as -> E.
    apply Forall_cons in Hw as [Hy Hw]. apply Forall_cons in Hdot as [_ Hdot].
    destruct b as [|x' b].
    + rewrite (Hlast y eq_refl) in Hy. done.
    + eapply (IH (x' :: b)); [done | done | | done | exact E | done].
      intros x Hx. apply Hlast. by rewrite last_cons_cons.
Qed.

(** A divider line with a clean path is a marker, and its group is the
    path. *)
Lemma marker_line_is_marker p tl :
  clean_path p -> at_eol tl = true ->
  marker_at true (marker_line p) p tl.
Proof.
  intros (Hdot & Hhead & Hlast) He. unfold marker_at, marker_line, match_here.
  rewrite <- !(assoc_L (++)).
  change (rmatch pattern ?st Some) with
    (rmatch (rlit MARKER_OPEN) st (fun st1 =>
       rmatch (RSeq (RStar true is_space)
              (RSeq (RGroup (RStar false is_dot))
              (RSeq (RStar true is_space)
              (RSeq (rlit MARKER_CLOSE) REol)))) st1 Some)).
  rewrite rmatch_rlit.
  destruct p as [|x p].
  - exists (MState 18 false tl (13, 13)%nat). simpl. rewrite He. done.
  - set (k4 := fun st1 : mstate =>
        rmatch (RSeq (RStar true is_space) (RSeq (rlit MARKER_CLOSE) REol))
          (MState (ms_pos st1) (ms_bol st1) (ms_rest st1) (12, ms_pos st1)%nat) Some).
    assert (Hx : is_space x = false) by (by apply Hhead).
    assert (Hlazy :
      star false is_dot k4 12 false (0, 0)%nat ((x :: p) ++ [32] ++ MARKER_CLOSE ++ tl)
      = Some (MState (12 + length (x :: p) + 6) false tl
                (12, 12 + length (x :: p))%nat)).
    { rewrite star_lazy_skip; [|done|].
      - unfold k4. simpl. rewrite He. destruct (is_dot 32); simpl;
          rewrite ?He; do 2 f_equal; lia.
      - intros a b Eab Hb. unfold k4. cbn [ms_pos ms_bol ms_rest].
        destruct (rmatch _ _ Some) as [st|] eqn:Em; [exfalso|done].
        apply rmatch_sound in Em as (st' & Ha & [= ->]).
        inv_seq Ha Hw2. apply accepts_star_inv in Hw2 as (w2 & Fw2 & B1 & _).
        inv_seq Ha Hclose.
        apply (accepts_rlit_inv MARKER_CLOSE) in Hclose as (D1 & _).
        inversion Ha as [| |? Hend| | | | |]; subst. simpl in B1.
        rewrite D1 in B1.
        eapply (no_early_close w2 b tl (ms_rest st)); [done | | | done | exact B1 | done].
        + rewrite Eab in Hdot. by apply Forall_app in Hdot as [_ ?].
        + intros z Hz. apply Hlast. rewrite Eab.
          rewrite last_app, Hz. done. }
    exists (MState (12 + length (x :: p) + 6) false tl (12, 12 + length (x :: p))%nat).
    split; [|split].
    + cbn [rmatch ms_pos ms_bol ms_rest ms_group].
      apply (star_greedy_one is_space _ 32 ((x :: p) ++ [32] ++ MARKER_CLOSE ++ tl));
        [done | exact Hx | exact Hlazy].
    + simpl. rewrite !length_app. simpl. lia.
    + cbn [ms_group fst snd]. unfold slice.
      replace (12 + length (x :: p) - 12)%nat with (length (x :: p)) by lia.
      change (MARKER_OPEN ++ [32] ++ (x :: p) ++ [32] ++ MARKER_CLOSE ++ tl)
        with (MARKER_OPEN ++ [32] ++ (x :: p) ++ ([32] ++ MARKER_CLOSE ++ tl)).
      rewrite (assoc_L (++) MARKER_OPEN [32]).
      change 12%nat with (length (MARKER_OPEN ++ [32])) at 1.
      by rewrite drop_app_length, take_app_length.
Qed.

Lemma parse_layout pre cs :
  marker_free true pre (render cs) ->
  layout (bol_after true pre) cs ->
  parse_concatenated_file (pre ++ render cs) = map section_of_chunk cs.
Proof.
  intros Hpre Hlay. rewrite parse_unfold. unfold finditer.
  rewrite (finditer_marker_free pre 0 true (render cs) Hpre).
  rewrite (finditer_layout cs _ _ Hlay). simpl.
  by apply (parse_sections cs [] pre (pre ++ render cs) (matches_of (length pre) cs)).
Qed.

Lemma lstrip_clean p :
  (forall x, head p = Some x -> is_space x = false) -> lstrip p = p.
Proof. destruct p as [|x p]; [done|]. intros H. simpl. by rewrite (H x eq_refl). Qed.

Lemma strip_clean p : clean_path p -> strip p = p.
Proof.
  intros (_ & Hh & Hl). unfold strip, rstrip. rewrite (lstrip_clean p Hh).
  rewrite lstrip_clean; [by rewrite reverse_involutive|].
  intros x Hx. apply Hl. by rewrite <- head_reverse.
Qed.

Lemma startswith_app s o : startswith (o ++ s) o = true.
Proof. induction o as [|c o IH]; [done|]. simpl. by rewrite N.eqb_refl. Qed.

Lemma startswith_inv o : forall s, startswith s o = true -> exists r, s = o ++ r.
Proof.
  induction o as [|c o IH]; intros s H; [by exists s|].
  destruct s as [|x s]; [done|]. simpl in H.
  apply andb_true_iff in H as [Hc Hs]. apply N.eqb_eq in Hc as ->.
  destruct (IH s Hs) as [r ->]. by exists r.
Qed.

Lemma match_here_open bol s st :
  match_here pattern bol s = Some st -> startswith s MARKER_OPEN = true.
Proof.
  intros H. apply marker_sound in H as (_ & w1 & c & w2 & -> & _).
  apply startswith_app.
Qed.

Lemma match_here_not_bol s : match_here pattern false s = None.
Proof.
  destruct (match_here pattern false s) eqn:E; [|done].
  by apply marker_sound in E as [? _].
Qed.

(** An opening that is found in front of [b ++ rest] is found in front of
    [b] when [b] ends a line: the opening has no newline. *)
Lemma startswith_before_nl o : forall b rest,
  Forall (fun c => is_nl c = false) o ->
  last b = Some NL ->
  startswith (b ++ rest) o = true -> startswith b o = true.
Proof.
  induction o as [|c o IH]; intros b rest Ho Hb H; [done|].
  apply Forall_cons in Ho as [Hc Ho].
  destruct b as [|x b]; [done|]. simpl in *.
  apply andb_true_iff in H as [Hx H]. rewrite Hx. simpl.
  destruct b as [|y b].
  - injection Hb as ->. apply N.eqb_eq in Hx as ->. done.
  - eapply IH; [done | by rewrite last_cons_cons in Hb | exact H].
Qed.

Lemma gap_marker_free body rest :
  plain body ->
  rest = [] \/ body = [] \/ last body = Some NL ->
  marker_free false (NL :: body) rest.
Proof.
  intros Hplain Hend [|z a] b E Hb.
  - apply match_here_not_bol.
  - injection E as <- ->. rewrite bol_after_cons.
    change (is_nl NL) with true.
    destruct (match_here pattern (bol_after true a) (b ++ rest)) as [st|] eqn:Em;
      [exfalso|done].
    pose proof (match_here_open _ _ _ Em) as Ho.
    apply marker_sound in Em as [Hbol _].
    specialize (Hplain a b eq_refl Hbol).
    destruct Hend as [-> | [Hnil | Hlast]].
    + rewrite app_nil_r in Ho. congruence.
    + apply app_eq_nil in Hnil as [_ ->]. done.
    + assert (Hb' : last b = Some NL).
      { rewrite last_app in Hlast. destruct (last b) eqn:El; [done|].
        apply last_None in El. done. }
      assert (Ho' : Forall (fun c => is_nl c = false) MARKER_OPEN).
      { unfold MARKER_OPEN. repeat (constructor; [reflexivity|]). constructor. }
      rewrite (startswith_before_nl MARKER_OPEN b rest Ho' Hb' Ho) in Hplain.
      done.
Qed.

Lemma render_chunks_of sections : render (chunks_of sections) = concatenate sections.
Proof.
  induction sections as [|[p body] sections IH]; [done|].
  unfold chunks_of in *. cbn [map]. rewrite render_cons, IH. simpl.
  unfold marker_line. by rewrite <- !(assoc_L (++)).
Qed.

Lemma bol_after_marker_line bol p : bol_after bol (marker_line p) = false.
Proof.
  unfold marker_line. by rewrite !bol_after_app.
Qed.

Lemma layout_chunks_of sections :
  separable sections -> layout true (chunks_of sections).
Proof.
  induction sections as [|[p body] sections IH]; [done|].
  intros (Hp & Hbody & Hend & Hsep). unfold chunks_of. cbn [map layout].
  fold (chunks_of sections). cbn [ck_marker ck_capture ck_gap fst snd].
  rewrite bol_after_marker_line, bol_after_cons. change (is_nl NL) with true.
  split; [|split].
  - by apply marker_line_is_marker.
  - apply gap_marker_free; [done|]. destruct Hend as [-> | H]; [by left | by right].
  - destruct sections as [|s sections]; [done|].
    destruct Hend as [? | [-> | Hlast]]; [done | by apply IH |].
    unfold bol_after. rewrite Hlast. by apply IH.
Qed.

(** X1.  The parser undoes the concatenation: from the artifact made of
    separable sections it returns these sections. *)
Theorem parse_concatenate (sections : list section) :
  separable sections ->
  parse_concatenated_file (concatenate sections) = sections.
Proof.
  intros Hsep. rewrite <- render_chunks_of.
  pose proof (parse_layout [] (chunks_of sections) (marker_free_nil _ _)
                (layout_chunks_of sections Hsep)) as H.
  cbn [app] in H. rewrite H. clear H.
  induction sections as [|[p body] sections IH]; [done|].
  destruct Hsep as (Hp & _ & _ & Hsep). cbn [chunks_of map].
  rewrite <- IH at 2 by done. f_equal.
  unfold section_of_chunk. simpl. by rewrite (strip_clean p Hp).
Qed.

Lemma plainb_true body : forall bol,
  plainb bol body = true ->
  forall a b, body = a ++ b -> bol_after bol a = true ->
    startswith b MARKER_OPEN = false.
Proof.
  induction body as [|c body IH]; intros bol H a b E Hbol.
  - symmetry in E. apply app_eq_nil in E as [_ ->]. done.
  - simpl in H. apply andb_true_iff in H as [H0 H1].
    destruct a as [|z a].
    + simpl in E. subst b. rewrite bol_after_nil in Hbol. subst bol.
      by apply negb_true_iff in H0.
    + injection E as <- ->. rewrite bol_after_cons in Hbol. by eapply IH.
Qed.

Lemma parse_concatenate_witness :
  parse_concatenated_file
    (concatenate [(lit "a.txt", lit "hello" ++ [NL]); (lit "b/c.txt", lit "world")])
  = [(lit "a.txt", lit "hello" ++ [NL]); (lit "b/c.txt", lit "world")].
Proof.
  apply parse_concatenate.
  repeat split; try (by repeat constructor);
    try (intros x [= <-]; reflexivity);
    try (intros a b; apply (plainb_true _ true); vm_compute; reflexivity).
Defined.

(** ** Every input, and every path the parser returns *)

Lemma parse_tiling (content : str) :
  exists pre cs,
    content = pre ++ render cs
    /\ marker_free true pre (render cs)
    /\ layout (bol_after true pre) cs
    /\ parse_concatenated_file content = map section_of_chunk cs.
Proof.
  destruct (layout_exists (length content) content true (le_n _))
    as (pre & cs & E & Hfree & Hlay).
  exists pre, cs. repeat split; [done..|]. rewrite E at 1.
  by apply parse_layout.
Qed.

(** X2.  Every input is a text without marker followed by markers and their
    gaps, and the parser returns one section for each marker, in order:
    nothing of the input but that first text, the markers and one newline
    after each marker is left out of the contents, and nothing is added. *)
Theorem parse_tiles_input (content : str) :
  exists pre cs,
    content = pre ++ render cs
    /\ marker_free true pre (render cs)
    /\ layout (bol_after true pre) cs
    /\ parse_concatenated_file content = map section_of_chunk cs.
Proof. apply parse_tiling. Qed.

Lemma lstrip_suffix s : exists a, s = a ++ lstrip s.
Proof.
  induction s as [|c s [a IH]]; [by exists []|]. simpl.
  destruct (is_space c); [|by exists []].
  exists (c :: a). simpl. by rewrite <- IH.
Qed.

Lemma lstrip_head s x : head (lstrip s) = Some x -> is_space x = false.
Proof.
  induction s as [|c s IH]; [done|]. simpl.
  destruct (is_space c) eqn:E; [done|]. by intros [= <-].
Qed.

Lemma lstrip_snoc x r :
  is_space x = false -> exists r', lstrip (r ++ [x]) = r' ++ [x].
Proof.
  intros Hx. induction r as [|c r [r' IH]]; simpl.
  - rewrite Hx. by exists [].
  - destruct (is_space c); [by exists r' | by exists (c :: r)].
Qed.

Lemma strip_is_clean s :
  Forall (fun c => is_dot c = true) s -> clean_path (strip s).
Proof.
  intros Hs. unfold strip, rstrip.
  destruct (lstrip_suffix s) as [a Ea].
  assert (Hl : Forall (fun c => is_dot c = true) (lstrip s)).
  { rewrite Ea in Hs. by apply Forall_app in Hs as [_ ?]. }
  pose proof (lstrip_head s) as Hhead.
  revert Hl Hhead. generalize (lstrip s). clear. intros t Ht Hhead.
  destruct (lstrip_suffix (reverse t)) as [b Eb].
  split; [|split].
  - apply Forall_reverse. apply Forall_reverse in Ht. rewrite Eb in Ht.
    by apply Forall_app in Ht as [_ ?].
  - intros x Hx. destruct t as [|y t]; [done|].
    rewrite reverse_cons in Hx.
    destruct (lstrip_snoc y (reverse t) (Hhead y eq_refl)) as [r' Er].
    rewrite Er, reverse_app in Hx. simpl in Hx. injection Hx as <-.
    by apply Hhead.
  - intros x Hx. rewrite last_reverse in Hx. by eapply lstrip_head.
Qed.

Lemma marker_at_capture bol m cap rest :
  marker_at bol m cap rest -> Forall (fun c => is_dot c = true) cap.
Proof.
  intros (st & Hm & _ & <-).
  apply marker_sound in Hm as (_ & w1 & c & w2 & -> & _ & Hc & _ & _ & _ & ->).
  cbn [fst snd]. unfold slice.
  replace (11 + length w1 + length c - (11 + length w1))%nat with (length c) by lia.
  rewrite (assoc_L (++) MARKER_OPEN w1).
  replace (11 + length w1)%nat with (length (MARKER_OPEN ++ w1))
    by (by rewrite length_app).
  by rewrite drop_app_length, take_app_length.
Qed.

Lemma layout_captures cs : forall bol,
  layout bol cs -> Forall (fun c => Forall (fun x => is_dot x = true) (ck_capture c)) cs.
Proof.
  induction cs as [|c cs IH]; intros bol H; [constructor|].
  destruct H as (Hm & _ & Hrest). constructor; [by eapply marker_at_capture|].
  by eapply IH.
Qed.

(** X3.  Every path the parser returns is on one line and has no white space
    around it, whatever the input. *)
Theorem parsed_paths_are_clean (content : str) (p body : str) :
  (p, body) ∈ parse_concatenated_file content -> clean_path p.
Proof.
  destruct (parse_tiling content) as (pre & cs & _ & _ & Hlay & ->).
  intros Hin. apply list_elem_of_fmap in Hin as (c & [= -> _] & Hc).
  apply strip_is_clean.
  pose proof (layout_captures cs _ Hlay) as Hall.
  rewrite Forall_forall in Hall. by apply Hall.
Qed.

Lemma parsed_paths_are_clean_witness : clean_path (lit "b/c.txt").
Proof.
  apply (parsed_paths_are_clean spec_example (lit "b/c.txt") (lit "world")).
  vm_compute. apply list_elem_of_In. simpl. right. left. reflexivity.
Defined.

(** ** Markers that run over a line break

    The class [\s] contains the newline, so the white space around the
    path of a marker can run over line breaks, although the pattern is
    anchored to lines and the header of the script gives the divider as
    one line. *)

(** C6.  The input ["===== FILE: a\n====="] has no marker line: neither of
    its two lines is matched by the pattern.  Yet the parser returns one
    section, with the path [a] and an empty content, and a run in which the
    operator accepts writes the file [a]. *)
Theorem no_marker_line_yet_a_section :
  split_nl two_line_example = [lit "===== FILE: a"; lit "====="]
  /\ Forall (fun l => marker_lineb l = false) (split_nl two_line_example)
  /\ parse_concatenated_file two_line_example = [(lit "a", [])]
  /\ exists w',
       main (fun s => s) (example_world two_line_example [Line (lit "y")])
       = (Ok tt, w')
       /\ w_fs w' !! [lit "home"; lit "out"; lit "a"] = Some (File []).
Proof.
  split; [reflexivity|]. split; [by repeat constructor|].
  split; [vm_compute; reflexivity|].
  eexists. split; [vm_compute; reflexivity|]. vm_compute. reflexivity.
Qed.

(** C1.  The input ["===== FILE:\n===== FILE: b =====\nx"] has exactly one
    marker line, its second line, whose captured path is [b]: parsed from
    that line on, the input gives the section [(b, x)].  On the whole input
    the match begins in the first line and runs over the line break, and
    the parser returns the path [===== FILE: b] instead. *)
Theorem marker_line_swallowed :
  split_nl swallow_example = [lit "===== FILE:"; marker_line (lit "b"); lit "x"]
  /\ map marker_lineb (split_nl swallow_example) = [false; true; false]
  /\ parse_concatenated_file (marker_line (lit "b") ++ [NL] ++ lit "x")
     = [(lit "b", lit "x")]
  /\ parse_concatenated_file swallow_example = [(lit "===== FILE: b", lit "x")].
Proof. repeat split; vm_compute; reflexivity. Qed.

(** ** Paths that stay below the base *)

Lemma walk_plain l : forall cur,
  Forall (fun c => c <> DOTDOT) l -> walk cur l = cur ++ l.
Proof.
  induction l as [|p l IH]; intros cur Hl; [by rewrite app_nil_r|].
  apply Forall_cons in Hl as [Hp Hl]. simpl.
  rewrite bool_decide_false by done. rewrite IH by done.
  by rewrite <- (assoc_L (++)).
Qed.

(** The components of a resolved path are plain names without null
    character, when the current directory is as the system reports it. *)
Lemma resolve_parts cwd p q :
  wf_cwd cwd -> resolve cwd p = Ok q ->
  Forall (fun c => c <> DOTDOT /\ has_nul c = false) (p_parts q).
Proof.
  intros Hcwd. unfold resolve.
  destruct (existsb has_nul (p_parts p)) eqn:En; [done|].
  intros [= <-]. cbn [p_parts]. apply walk_Forall.
  - destruct (p_abs p); [constructor | exact Hcwd].
  - apply Forall_forall. intros c Hin Hc. split; [done|].
    apply not_true_is_false. intros Hnul.
    assert (existsb has_nul (p_parts p) = true); [|congruence].
    apply existsb_exists. exists c. split; [by apply list_elem_of_In | done].
Qed.

(** X5.  A candidate that is not rooted, has no [..] component and no null
    character is safe for every base that resolves: the check accepts
    every ordinary relative path, also the empty one. *)
Theorem plain_relative_path_is_safe (cwd : list str) (base_dir file_path : str)
    (base : ppath) :
  wf_cwd cwd ->
  resolve cwd (path_of base_dir) = Ok base ->
  startswith file_path [SEP] = false ->
  has_nul file_path = false ->
  Forall (fun c => c <> DOTDOT) (p_parts (path_of file_path)) ->
  is_safe_path cwd base_dir file_path = Ok true.
Proof.
  intros Hcwd Hb Hrel Hnul Hplain.
  pose proof (resolve_parts _ _ _ Hcwd Hb) as Hparts.
  pose proof (resolve_abs _ _ _ Hb) as Habs.
  assert (Hq : forall c, c ∈ p_parts (path_of file_path) -> has_nul c = false).
  { intros c Hin. apply list_elem_of_filter in Hin as [_ Hin].
    pose proof (split_sep_nul _ Hnul) as Hall.
    rewrite Forall_forall in Hall. by apply Hall. }
  assert (Ht : resolve cwd (joinpath base file_path)
               = Ok (PPath true (p_parts base ++ p_parts (path_of file_path)))).
  { unfold resolve, joinpath.
    assert (Ea : p_abs (path_of file_path) = false) by done.
    rewrite Ea, Habs. cbn [p_parts p_abs].
    assert (En : existsb has_nul (p_parts base ++ p_parts (path_of file_path)) = false).
    { apply not_true_is_false. intros Hex.
      apply existsb_exists in Hex as (c & Hin & Hc).
      apply list_elem_of_In, elem_of_app in Hin as [Hin|Hin].
      - rewrite Forall_forall in Hparts. destruct (Hparts c Hin). congruence.
      - rewrite (Hq c Hin) in Hc. done. }
    rewrite En. do 2 f_equal. apply (walk_plain _ []).
    apply Forall_app. split; [|done].
    eapply Forall_impl; [exact Hparts|]. by intros c [? _]. }
  rewrite (is_safe_path_resolved _ _ _ _ _ Hb Ht). f_equal.
  apply is_prefix_spec. cbn [p_parts]. by eexists.
Qed.

Lemma plain_relative_path_is_safe_witness :
  is_safe_path [lit "home"] (lit "out") (lit "sub/dir/file.txt") = Ok true
  /\ is_safe_path [lit "home"] (lit "out") [] = Ok true.
Proof.
  split.
  - apply (plain_relative_path_is_safe _ _ _ (PPath true [lit "home"; lit "out"]));
      try (vm_compute; reflexivity).
    + repeat constructor; vm_compute; discriminate.
    + repeat constructor; vm_compute; discriminate.
  - apply (plain_relative_path_is_safe _ _ _ (PPath true [lit "home"; lit "out"]));
      try (vm_compute; reflexivity).
    + repeat constructor; vm_compute; discriminate.
    + constructor.
Defined.

(** ** The ways [main] ends *)

Lemma os_path_isdir_total s w : exists b, os_path_isdir s w = (Ok b, w).
Proof. unfold os_path_isdir. destruct (os_resolve (w_cwd w) s); by eexists. Qed.

Lemma read_text_world s w r w' :
  read_text s w = (r, w') ->
  w' = w /\ match r with Ok _ => True | Raise e => is_Exception e = true end.
Proof.
  unfold read_text. destruct (os_resolve (w_cwd w) s); [|by intros [= <- <-]].
  destruct (lookup_node (w_fs w) l) as [[|c]|]; by intros [= <- <-].
Qed.

Lemma write_files_status files output_dir w :
  (write_files files output_dir w).1 = Ok tt
  \/ (write_files files output_dir w).1 = Raise (SystemExit 1).
Proof.
  unfold write_files. pose proof (write_loop_spec output_dir files [] w) as H.
  destruct (write_loop files output_dir [] w) as [[written [u|e]] w']; [by left|].
  right. destruct H as (k & p & c & fps & w1 & _ & _ & _ & Hfail).
  apply write_one_raise in Hfail as [He _]. rewrite He.
  unfold bind, print, sys_exit, raise. by rewrite print_all_spec.
Qed.

Section MainEnds.
Variable unicode_lower : str -> str.

Local Arguments lit : simpl never.
Local Opaque parse_concatenated_file list_files_status write_files.

Lemma main_usage w :
  (length (w_argv w) < 2)%nat ->
  main unicode_lower w = (Raise (SystemExit 1), printed w USAGE).
Proof.
  intros H. unfold main. erewrite bind_ok by reflexivity.
  by rewrite bool_decide_true by done.
Qed.

Lemma main_no_output_dir w :
  (2 <= length (w_argv w))%nat ->
  os_path_isdir (output_of w) w = (Ok false, w) ->
  main unicode_lower w
  = (Raise (SystemExit 1), printed w (no_output_dir (output_of w))).
Proof.
  intros H Hdir. unfold main. erewrite bind_ok by reflexivity.
  rewrite bool_decide_false by lia.
  erewrite bind_ok by reflexivity. cbv zeta.
  by erewrite bind_ok by exact Hdir.
Qed.

Lemma main_unreadable w e :
  (2 <= length (w_argv w))%nat ->
  os_path_isdir (output_of w) w = (Ok true, w) ->
  read_text (input_of w) w = (Raise e, w) ->
  main unicode_lower w
  = (Raise (SystemExit 1), printed w (read_failure (input_of w) e)).
Proof.
  intros H Hdir Hread. unfold main. erewrite bind_ok by reflexivity.
  rewrite bool_decide_false by lia.
  erewrite bind_ok by reflexivity. cbv zeta.
  erewrite bind_ok by exact Hdir. simpl negb.
  erewrite bind_ok by reflexivity.
  pose proof (read_text_world _ _ _ _ Hread) as [_ He].
  unfold input_of in Hread.
  destruct e; try done;
    (erewrite bind_raise;
       [reflexivity | unfold try_except; rewrite Hread; reflexivity]).
Qed.

(** X6.  [main] stops with status 1 and one message, and does nothing
    else, when the input file is not named, when the output directory does
    not exist (the input file is then not even read), and when the input
    file cannot be read; the message tells a missing file from the other
    failures. *)
Theorem main_early_exits (w : world) :
  ((length (w_argv w) < 2)%nat ->
     main unicode_lower w = (Raise (SystemExit 1), printed w USAGE))
  /\ ((2 <= length (w_argv w))%nat ->
      os_path_isdir (output_of w) w = (Ok false, w) ->
      main unicode_lower w
      = (Raise (SystemExit 1), printed w (no_output_dir (output_of w))))
  /\ (forall e,
      (2 <= length (w_argv w))%nat ->
      os_path_isdir (output_of w) w = (Ok true, w) ->
      read_text (input_of w) w = (Raise e, w) ->
      main unicode_lower w
      = (Raise (SystemExit 1), printed w (read_failure (input_of w) e))).
Proof.
  split; [apply main_usage|]. split; [apply main_no_output_dir|].
  intros e. apply main_unreadable.
Qed.

(** X7.  Every run of [main] ends with status 0 or 1, and it leaves the
    file system as it was unless the prompt was reached and the operator
    gave an answer other than [n] and [no]: then, and only then, the run
    is the run of [write_files] on the parsed sections. *)
Theorem main_writes_only_after_accept (w : world) :
  (exit_status (main unicode_lower w).1 = 0%Z
   \/ exit_status (main unicode_lower w).1 = 1%Z)
  /\ (w_fs (main unicode_lower w).2 = w_fs w
      \/ exists files w1 a rest,
           prompted w files w1
           /\ w_stdin w = Line a :: rest
           /\ lower unicode_lower (strip a) <> lit "n"
           /\ lower unicode_lower (strip a) <> lit "no"
           /\ main unicode_lower w
              = write_files files (output_of w) (asked w1 rest)).
Proof.
  destruct (decide (length (w_argv w) < 2)%nat) as [Hlt|Hge].
  { rewrite (main_usage w Hlt). split; [by right | by left]. }
  assert (Hargv : (2 <= length (w_argv w))%nat) by lia.
  destruct (os_path_isdir_total (output_of w) w) as [[|] Hdir].
  2:{ rewrite (main_no_output_dir w Hargv Hdir). split; [by right | by left]. }
  destruct (read_text (input_of w) w) as [[content|e] w0] eqn:Hread.
  2:{ pose proof (read_text_world _ _ _ _ Hread) as [-> _].
      rewrite (main_unreadable w e Hargv Hdir Hread). split; [by right | by left]. }
  pose proof (read_text_world _ _ _ _ Hread) as [-> _].
  assert (Hs : started w content) by done.
  destruct (decide (parse_concatenated_file content = [])) as [Hnil|Hne].
  { destruct (main_no_sections unicode_lower w content Hs Hnil) as (w' & E & Hq).
    rewrite E. split; [by left | left; by apply quiet_fs]. }
  destruct (list_files_status (parse_concatenated_file content) (output_of w) w)
    as [[[|]|e] w1] eqn:Hl.
  - destruct (main_unsafe unicode_lower w content w1 Hs Hne Hl) as (w' & E & Hq).
    pose proof (list_files_status_spec _ _ _ _ _ Hl) as [Hq1 _].
    rewrite E. split; [by right|]. left. simpl.
    by rewrite (quiet_fs _ _ Hq), (quiet_fs _ _ Hq1).
  - assert (Hp : prompted w (parse_concatenated_file content) w1)
      by (by exists content).
    assert (Hdecl : declined unicode_lower (w_stdin w) ->
      (exit_status (main unicode_lower w).1 = 0%Z
       \/ exit_status (main unicode_lower w).1 = 1%Z)
      /\ (w_fs (main unicode_lower w).2 = w_fs w
          \/ exists files w1 a rest,
               prompted w files w1
               /\ w_stdin w = Line a :: rest
               /\ lower unicode_lower (strip a) <> lit "n"
               /\ lower unicode_lower (strip a) <> lit "no"
               /\ main unicode_lower w
                  = write_files files (output_of w) (asked w1 rest))).
    { intros Hd. destruct (main_declined unicode_lower w _ w1 Hp Hd) as (w' & E & Hfs).
      rewrite E. split; [by left | by left]. }
    destruct (w_stdin w) as [|[a|] rest] eqn:Hin.
    + apply Hdecl. constructor.
    + destruct (decide (lower unicode_lower (strip a) = lit "n")) as [Hn|Hn].
      { apply Hdecl. by apply declined_n. }
      destruct (decide (lower unicode_lower (strip a) = lit "no")) as [Hno|Hno].
      { apply Hdecl. by apply declined_no. }
      pose proof (main_accepted unicode_lower w _ w1 a rest Hp Hin Hn Hno) as E.
      split.
      * rewrite E.
        destruct (write_files_status (parse_concatenated_file content)
                    (output_of w) (asked w1 rest)) as [-> | ->]; [by left | by right].
      * right. by exists (parse_concatenated_file content), w1, a, rest.
    + apply Hdecl. constructor.
  - rewrite (main_listing_raises unicode_lower w content e w1 Hs Hne Hl).
    pose proof (list_files_status_spec _ _ _ _ _ Hl) as [Hq Hraise].
    apply Exists_exists in Hraise as (s & _ & Hr).
    rewrite (is_safe_path_raise _ _ _ _ Hr). split; [by right|].
    left. by apply quiet_fs.
Qed.

End MainEnds.

Lemma main_early_exits_witness :
  main (fun s => s) (MkWorld [lit "splitter.py"] [lit "home"] ∅ ∅ [] [])
  = (Raise (SystemExit 1),
     printed (MkWorld [lit "splitter.py"] [lit "home"] ∅ ∅ [] []) USAGE)
  /\ exists w',
       main (fun s => s)
            (MkWorld [lit "splitter.py"; lit "in.txt"; lit "out"] [lit "home"] ∅ ∅ [] [])
       = (Raise (SystemExit 1), w')
       /\ w_stdout w' = [no_output_dir (lit "out")].
Proof.
  split.
  - apply (proj1 (main_early_exits (fun s => s) _)). simpl. lia.
  - eexists. split.
    + apply (proj1 (proj2 (main_early_exits (fun s => s) _))); [simpl; lia|].
      vm_compute. reflexivity.
    + reflexivity.
Defined.
